(** * EasyPitch: a shallow embedding of the note library and its sequencer

    The JavaScript sources define, in several near-identical versions, a
    pitch table ([noteFreqs], [Note.getFreq]), two amplitude envelopes
    ([attackAndDecay], [lognormal]), overtone instruments ([Instrument],
    [SimpleInstrument]), the buffer renderer [_playFreq] and the
    callback-chained sequencer ([playNote], [playNotes]).

    Numbers.  A JavaScript number is modelled by [num]: a real number or one
    of the three special values [Infinity], [-Infinity], [NaN].  Arithmetic on
    finite values is exact (the rounding of binary64 and the sign of zero are
    not modelled); arithmetic on the special values follows ECMAScript.
    Statements that range over every octave, frequency or weight are made
    over [Binary64], the same functions over arithmetic that overflows to an
    infinity and underflows to 0 where binary64 does; rounding within the
    range is not modelled there either.

    Host.  The audio context and the timer queue are the host's.  Every call
    the code makes to them is recorded in a trace; what the host answers
    (the sample rate, the geometry of the buffer it hands back) is a
    parameter.  The code contains neither [throw] nor [try].  For the
    sequencer the host calls are taken to return; for the renderer at a
    duration that is not positive, [Raising] has a context whose
    [createBuffer] may raise. *)

From Stdlib Require Import Reals Lra Lia List String ZArith Bool.
Import ListNotations.
Open Scope R_scope.

(** ** JavaScript numbers *)

Inductive num : Type :=
| Fin (r : R)
| PInf
| NInf
| NaN.

Definition Rltb (x y : R) : bool := if Rlt_dec x y then true else false.
Definition Reqb (x y : R) : bool := if Req_dec_T x y then true else false.

(** Truncation toward zero of a real, as ECMAScript's [truncate]. *)
Definition Rtrunc (x : R) : Z :=
  if Rltb x 0 then (- Int_part (- x))%Z else Int_part x.

(** [isInt x]: the real [x] is an integer. *)
Definition isInt (x : R) : bool := Reqb x (IZR (Rtrunc x)).

Definition nneg (a : num) : num :=
  match a with
  | Fin x => Fin (- x)
  | PInf => NInf
  | NInf => PInf
  | NaN => NaN
  end.

(** The infinity obtained by multiplying [PInf] by a finite [x]. *)
Definition inf_times (x : R) : num :=
  if Rltb 0 x then PInf else if Rltb x 0 then NInf else NaN.

(** [a + b] *)
Definition nadd (a b : num) : num :=
  match a, b with
  | NaN, _ | _, NaN => NaN
  | Fin x, Fin y => Fin (x + y)
  | PInf, NInf | NInf, PInf => NaN
  | PInf, _ | _, PInf => PInf
  | NInf, _ | _, NInf => NInf
  end.

(** [a - b] *)
Definition nsub (a b : num) : num := nadd a (nneg b).

(** [a * b] *)
Definition nmul (a b : num) : num :=
  match a, b with
  | NaN, _ | _, NaN => NaN
  | Fin x, Fin y => Fin (x * y)
  | Fin x, PInf | PInf, Fin x => inf_times x
  | Fin x, NInf | NInf, Fin x => nneg (inf_times x)
  | PInf, PInf | NInf, NInf => PInf
  | PInf, NInf | NInf, PInf => NInf
  end.

(** [a / b]; a zero divisor counts as [+0]. *)
Definition ndiv (a b : num) : num :=
  match a, b with
  | NaN, _ | _, NaN => NaN
  | Fin x, Fin y => if Reqb y 0 then inf_times x else Fin (x / y)
  | Fin _, (PInf | NInf) => Fin 0
  | PInf, Fin y => if Rltb y 0 then NInf else PInf
  | NInf, Fin y => if Rltb y 0 then PInf else NInf
  | (PInf | NInf), (PInf | NInf) => NaN
  end.

(** [a % b]: the remainder has the sign of the dividend. *)
Definition nrem (a b : num) : num :=
  match a, b with
  | NaN, _ | _, NaN => NaN
  | (PInf | NInf), _ => NaN
  | Fin x, (PInf | NInf) => Fin x
  | Fin x, Fin y =>
      if Reqb y 0 then NaN else Fin (x - y * IZR (Rtrunc (x / y)))
  end.

(** [a < b]; any comparison with [NaN] is false. *)
Definition nlt (a b : num) : bool :=
  match a, b with
  | NaN, _ | _, NaN => false
  | Fin x, Fin y => Rltb x y
  | _, NInf => false
  | NInf, _ => true
  | PInf, _ => false
  | _, PInf => true
  end.

(** The order [a <= b] of ECMAScript as a proposition. *)
Definition nle (a b : num) : Prop :=
  match a, b with
  | NaN, _ | _, NaN => False
  | Fin x, Fin y => x <= y
  | NInf, _ => True
  | _, PInf => True
  | _, NInf => False
  | PInf, _ => False
  end.

Definition Math_PI : num := Fin PI.
Definition Math_E : num := Fin (exp 1).

Definition Math_sqrt (a : num) : num :=
  match a with
  | Fin x => if Rltb x 0 then NaN else Fin (sqrt x)
  | PInf => PInf
  | NInf | NaN => NaN
  end.

Definition Math_log (a : num) : num :=
  match a with
  | Fin x => if Rltb x 0 then NaN else if Reqb x 0 then NInf else Fin (ln x)
  | PInf => PInf
  | NInf | NaN => NaN
  end.

Definition Math_sin (a : num) : num :=
  match a with
  | Fin x => Fin (sin x)
  | PInf | NInf | NaN => NaN
  end.

(** [Math.pow(b, e)], following Number::exponentiate. *)
Definition Math_pow (b e : num) : num :=
  match e with
  | NaN => NaN
  | PInf =>
      match b with
      | NaN => NaN
      | PInf | NInf => PInf
      | Fin x =>
          if Rltb 1 (Rabs x) then PInf
          else if Reqb (Rabs x) 1 then NaN else Fin 0
      end
  | NInf =>
      match b with
      | NaN => NaN
      | PInf | NInf => Fin 0
      | Fin x =>
          if Rltb 1 (Rabs x) then Fin 0
          else if Reqb (Rabs x) 1 then NaN else PInf
      end
  | Fin y =>
      if Reqb y 0 then Fin 1
      else
        match b with
        | NaN => NaN
        | PInf => if Rltb 0 y then PInf else Fin 0
        | NInf =>
            if Rltb 0 y
            then (if isInt y && Z.odd (Rtrunc y) then NInf else PInf)
            else Fin 0
        | Fin x =>
            if Rltb 0 x then Fin (Rpower x y)
            else if Reqb x 0 then (if Rltb 0 y then Fin 0 else PInf)
            else if isInt y then Fin (powerRZ x (Rtrunc y))
            else NaN
        end
  end.

(** ** Pitch table *)

(** The object literal [noteFreqs]: the frequencies of octave 8 by name. *)
Definition noteFreqs : list (string * R) :=
  [ ("C", 4186.01); ("C#", 4434.92); ("Db", 4434.92); ("D", 4698.63);
    ("D#", 4978.03); ("Eb", 4978.03); ("E", 5274.04); ("F", 5587.65);
    ("F#", 5919.91); ("Gb", 5919.91); ("G", 6271.93); ("G#", 6644.88);
    ("Ab", 6644.88); ("A", 7040.00); ("A#", 7458.62); ("Bb", 7458.62);
    ("B", 7902.13) ]%string.

(** Property access [obj[key]].  [None] stands for a key the literal does not
    list: the access then yields [undefined] or a member inherited from
    [Object.prototype], none of which is a number. *)
Fixpoint get (obj : list (string * R)) (key : string) : option R :=
  match obj with
  | [] => None
  | (k, v) :: rest => if String.eqb key k then Some v else get rest key
  end.

(** The numeric value of the result of a property access in a product. *)
Definition ToNumber (v : option R) : num :=
  match v with
  | Some x => Fin x
  | None => NaN
  end.

(** [class Rest]: a length, 1 for a whole note. *)
Record Rest : Type := mkRest { Rest_length : R }.

(** [class Note]: a name, an integer octave and a length. *)
Record Note : Type := mkNote {
  Note_name : string;
  Note_octave : Z;
  Note_length : R
}.

(** [Note.getFreq] *)
Definition getFreq (this : Note) : num :=
  let octaveScale :=
    Math_pow (Fin 2) (nsub (Fin (IZR (Note_octave this))) (Fin 8)) in
  nmul octaveScale (ToNumber (get noteFreqs (Note_name this))).

(** ** Envelopes *)

(** [attackAndDecay(x, attackPoint, decayPoint)] *)
Definition attackAndDecay (x attackPoint decayPoint : num) : num :=
  if nlt x attackPoint then nmul (ndiv (Fin 1) attackPoint) x
  else if nlt x decayPoint then Fin 1
  else
    let slope := ndiv (Fin (-1)) (nsub (Fin 1) decayPoint) in
    nadd (nmul slope (nsub x decayPoint)) (Fin 1).

(** [lognormal(x)] *)
Definition lognormal (x : num) : num :=
  nmul (ndiv (Fin 1) (Math_sqrt (nmul (Fin 2) Math_PI)))
       (Math_pow Math_E
          (nmul (ndiv (Fin (-1)) (Fin 2)) (Math_pow (Math_log x) (Fin 2)))).

(** ** Wave shapes: [Instrument.WAVES] *)

Definition SQUARE (t : num) : num :=
  if nlt (nrem t (Fin 1)) (Fin 0.5) then Fin 1 else Fin (-1).

Definition TRIANGLE (t : num) : num :=
  nsub (nmul (Fin 2) (nrem t (Fin 1))) (Fin 1).

Definition SINE (t : num) : num :=
  Math_sin (nmul (nmul (Fin 2) Math_PI) t).

(** ** Instruments *)

Inductive exn : Type := TypeError | ReferenceError.

(** The outcome of a constructor call. *)
Inductive completion (A : Type) : Type :=
| Normal (a : A)
| Throw (e : exn).
Arguments Normal {A} a.
Arguments Throw {A} e.

(** [overtones.reduce((a, b) => a+b)]: without an initial value the call
    throws on an empty array. *)
Definition reduce_add (overtones : list num) : completion num :=
  match overtones with
  | [] => Throw TypeError
  | a :: rest => Normal (fold_left nadd rest a)
  end.

(** [class RawInstrument]: the waveform function [(t, freq, tmax) => sample]. *)
Record RawInstrument : Type := mkRawInstrument {
  waveformFunc : num -> num -> num -> num
}.

(** The loop of the waveform function of [Instrument] from index [i] on, over
    the weights [overtones[i..]], with the running value of [sample]. *)
Fixpoint overtone_loop (waveFunc : num -> num) (overtones : list num)
    (i : nat) (t freq tmax sample : num) : num :=
  match overtones with
  | [] => sample
  | w :: rest =>
      let overtoneFreq := nmul freq (Fin (INR (i + 1))) in
      let wave := waveFunc (nmul overtoneFreq t) in
      let amplitude :=
        nmul w (attackAndDecay (ndiv t tmax) (Fin 0.1) (Fin 0.5)) in
      overtone_loop waveFunc rest (S i) t freq tmax
        (nadd sample (nmul amplitude wave))
  end.

(** [new Instrument(overtones, waveFunc)].  An omitted [waveFunc] is replaced
    by [SimpleInstrument.WAVES.SINE], and this version of the library defines
    no [SimpleInstrument]. *)
Definition Instrument (overtones : list num) (waveFunc : option (num -> num))
  : completion RawInstrument :=
  match waveFunc with
  | None => Throw ReferenceError
  | Some waveFunc =>
      match reduce_add overtones with
      | Throw e => Throw e
      | Normal overtoneSum =>
          Normal (mkRawInstrument (fun t freq tmax =>
            ndiv (overtone_loop waveFunc overtones 0 t freq tmax (Fin 0))
                 overtoneSum))
      end
  end.

(** The loop of the waveform function of [SimpleInstrument]. *)
Fixpoint simple_loop (overtones : list num) (i : nat) (t freq sample : num)
  : num :=
  match overtones with
  | [] => sample
  | w :: rest =>
      let overtoneFreq := nmul freq (Fin (INR (i + 1))) in
      let wave :=
        Math_sin (nmul (nmul (nmul (Fin 2) Math_PI) overtoneFreq) t) in
      let amplitude := nmul w (lognormal (nmul (Fin 50) t)) in
      simple_loop rest (S i) t freq (nadd sample (nmul amplitude wave))
  end.

(** [new SimpleInstrument(overtones)] of the log-normal version; its waveform
    function is [(t, freq) => sample]. *)
Definition SimpleInstrument (overtones : list num)
  : completion (num -> num -> num) :=
  match reduce_add overtones with
  | Throw e => Throw e
  | Normal overtoneSum =>
      Normal (fun t freq =>
        ndiv (simple_loop overtones 0 t freq (Fin 0)) overtoneSum)
  end.

(** ** The host: audio context and timers *)

(** What the host hands back from [createBuffer]: [buffer.numberOfChannels]
    and the length of each channel's sample array. *)
Record AudioBuffer : Type := mkAudioBuffer {
  numberOfChannels : nat;
  channelLength : nat
}.

Record Host : Type := mkHost {
  sampleRate : num;
  createBuffer : nat -> num -> num -> AudioBuffer
}.

(** The calls the library makes to the host and to its caller:
    [context.createBufferSource()]; [context.createBuffer(channels, frames,
    rate)]; the submission of a filled buffer ([source.buffer = buffer],
    [source.connect(context.destination)], [source.start(0)]), with the
    samples of each channel; [setTimeout(nextNote, ms)]; the completion
    callback given to [playNotes]. *)
Inductive call : Type :=
| CreateBufferSource
| CreateBuffer (channels : nat) (frames rate : num)
| Start (channels : list (list num))
| SetTimeout (ms : num)
| Callback.

(** The state of the host: the scheduled clock of the running task, in
    milliseconds; the calls made so far, each with the clock at which it was
    made; the due times of the armed timers.  The only function the library
    ever hands to [setTimeout] is the sequencer's closure.  The clock is the
    scheduled one: a timer is due at the clock of its arming plus its delay,
    whatever the resolution of the host's timers. *)
Record world : Type := mkWorld {
  now : num;
  trace : list (num * call);
  timers : list num
}.

Definition initial : world := mkWorld (Fin 0) [] [].

Definition emit (c : call) (w : world) : world :=
  mkWorld (now w) (trace w ++ [(now w, c)]) (timers w).

(** [setTimeout(callback, ms)] *)
Definition setTimeout (ms : num) (w : world) : world :=
  mkWorld (now w) (trace w ++ [(now w, SetTimeout ms)])
          (timers w ++ [nadd (now w) ms]).

(** The inner loop of [_playFreq]: sample [i] of a channel of [len] samples
    is [waveformFunc(i/context.sampleRate, freq, time)]. *)
Definition channelData (this : RawInstrument) (context : Host)
    (freq time : num) (len : nat) : list num :=
  map (fun i => waveformFunc this (ndiv (Fin (INR i)) (sampleRate context))
                             freq time)
      (seq 0 len).

(** The calls of [RawInstrument._playFreq(freq, time)], in order. *)
Definition _playFreq_calls (this : RawInstrument) (context : Host)
    (freq time : num) : list call :=
  let frames := nmul (sampleRate context) time in
  let buffer := createBuffer context 2 frames (sampleRate context) in
  [ CreateBufferSource;
    CreateBuffer 2 frames (sampleRate context);
    Start (map (fun _ => channelData this context freq time
                           (channelLength buffer))
               (seq 0 (numberOfChannels buffer))) ].

(** [RawInstrument._playFreq(freq, time)] *)
Definition _playFreq (this : RawInstrument) (context : Host)
    (freq time : num) (w : world) : world :=
  fold_left (fun w c => emit c w) (_playFreq_calls this context freq time) w.

(** ** The sequencer *)

(** An element of the array given to [playNotes], a [Note] or a [Rest] as
    [playNote] documents its parameter, told apart by [instanceof]. *)
Inductive entry : Type :=
| ENote (n : Note)
| ERest (r : Rest).

(** [RawInstrument.playNote(note, bpm, callback)]; the callback is the one
    armed by [setTimeout]. *)
Definition playNote (this : RawInstrument) (context : Host)
    (note : entry) (bpm : num) (w : world) : world :=
  let secondsPerWholeNote := ndiv (Fin 60) bpm in
  match note with
  | ENote n =>
      let seconds := nmul secondsPerWholeNote (Fin (Note_length n)) in
      setTimeout (nmul (Fin 1000) seconds)
                 (_playFreq this context (getFreq n) seconds w)
  | ERest r =>
      let seconds := nmul secondsPerWholeNote (Fin (Rest_length r)) in
      setTimeout (nmul (Fin 1000) seconds) w
  end.

(** The state of one call of [playNotes]: the closure variable [i] and the
    host. *)
Record sequencer : Type := mkSequencer {
  i : nat;
  host : world
}.

(** One activation of the closure [nextNote].  [nth_error notes i] is
    [Some] exactly when [i < notes.length]. *)
Definition nextNote (this : RawInstrument) (context : Host)
    (notes : list entry) (bpm : num) (s : sequencer) : sequencer :=
  match nth_error notes (i s) with
  | Some note => mkSequencer (S (i s)) (playNote this context note bpm (host s))
  | None => mkSequencer (i s) (emit Callback (host s))
  end.

(** The host's timer loop: while a timer is armed, advance the clock to its
    due time and run its callback. *)
Fixpoint run_timers (fuel : nat) (callback : sequencer -> sequencer)
    (s : sequencer) : option sequencer :=
  match timers (host s) with
  | [] => Some s
  | due :: rest =>
      match fuel with
      | O => None
      | S fuel' =>
          run_timers fuel' callback
            (callback (mkSequencer (i s)
                         (mkWorld due (trace (host s)) rest)))
      end
  end.

(** [RawInstrument.playNotes(notes, bpm, callback)], run until no timer is
    armed.  [None]: the timers did not run out within the fuel. *)
Definition playNotes_fuel (fuel : nat) (this : RawInstrument)
    (context : Host) (notes : list entry) (bpm : num) : option sequencer :=
  run_timers fuel (nextNote this context notes bpm)
    (nextNote this context notes bpm (mkSequencer 0 initial)).

Definition playNotes (this : RawInstrument) (context : Host)
    (notes : list entry) (bpm : num) : option sequencer :=
  playNotes_fuel (List.length notes) this context notes bpm.

(** ** Quantities the statements are about *)

(** The length field of an entry, the [durationFraction] of the
    specification. *)
Definition durationFraction (e : entry) : R :=
  match e with
  | ENote n => Note_length n
  | ERest r => Rest_length r
  end.

(** The scheduled duration of an entry in seconds, [60/bpm * length]. *)
Definition entrySeconds (bpm : R) (e : entry) : R :=
  60 / bpm * durationFraction e.

(** The sum of a list of reals. *)
Definition Rsum (l : list R) : R := fold_right Rplus 0 l.

(** The sum of the scheduled durations of a list of entries, in seconds. *)
Definition totalSeconds (bpm : R) (notes : list entry) : R :=
  Rsum (map (fun e => 60 / bpm * durationFraction e) notes).

(** The scheduled start of entry [k], in seconds: the scheduled durations of
    the entries before it. *)
Definition startOffset (bpm : R) (notes : list entry) (k : nat) : R :=
  totalSeconds bpm (firstn k notes).

(** The calls made on behalf of one entry. *)
Definition entryCalls (this : RawInstrument) (context : Host) (bpm : R)
    (e : entry) : list call :=
  match e with
  | ENote n =>
      _playFreq_calls this context (getFreq n) (Fin (entrySeconds bpm e))
        ++ [SetTimeout (Fin (1000 * entrySeconds bpm e))]
  | ERest _ => [SetTimeout (Fin (1000 * entrySeconds bpm e))]
  end.

(** The calls made on behalf of entry [k] of [notes], each at the clock
    (milliseconds) of the entry's scheduled start. *)
Definition entryAt (this : RawInstrument) (context : Host) (bpm : R)
    (notes : list entry) (k : nat) : list (num * call) :=
  match nth_error notes k with
  | Some e =>
      map (fun c => (Fin (1000 * startOffset bpm notes k), c))
          (entryCalls this context bpm e)
  | None => []
  end.

Definition isCallback (c : call) : bool :=
  match c with Callback => true | _ => false end.

Definition isStart (c : call) : bool :=
  match c with Start _ => true | _ => false end.

Definition isCreateBuffer (c : call) : bool :=
  match c with CreateBuffer _ _ _ => true | _ => false end.

Definition isNote (e : entry) : bool :=
  match e with ENote _ => true | ERest _ => false end.

(** The number of calls of a trace that satisfy [p]. *)
Definition count (p : call -> bool) (tr : list (num * call)) : nat :=
  List.length (filter (fun x => p (snd x)) tr).

(** The delays handed to [setTimeout] along a trace, in order. *)
Fixpoint delays (tr : list (num * call)) : list num :=
  match tr with
  | [] => []
  | (_, SetTimeout ms) :: rest => ms :: delays rest
  | _ :: rest => delays rest
  end.

(** The pairs of names of one pitch class. *)
Definition enharmonic : list (string * string) :=
  [ ("C#", "Db"); ("D#", "Eb"); ("F#", "Gb"); ("G#", "Ab"); ("A#", "Bb") ]%string.

(** A name is recognized when the pitch table lists it. *)
Definition recognized (name : string) : bool :=
  match get noteFreqs name with
  | Some _ => true
  | None => false
  end.

(** ** The timer loop, firing by firing *)

(** The host fires the timer at the head of the queue: the clock advances to
    its due time and its callback runs.  [None]: no timer is armed. *)
Definition fire (callback : sequencer -> sequencer) (s : sequencer)
  : option sequencer :=
  match timers (host s) with
  | [] => None
  | due :: rest =>
      Some (callback (mkSequencer (i s) (mkWorld due (trace (host s)) rest)))
  end.

(** The state after at most [k] firings. *)
Fixpoint after (k : nat) (callback : sequencer -> sequencer) (s : sequencer)
  : sequencer :=
  match k with
  | O => s
  | S k' =>
      match fire callback s with
      | Some s' => after k' callback s'
      | None => s
      end
  end.

(** ** The first version of the library: [PitchBoard]

    Its [playFreq] computes the samples in place, with the overtones
    [[1, 1/2, 0, 0, 1/4]] and the log-normal envelope; its notes play
    themselves ([Note.play]) and [playNotes] takes no completion callback.
    The fields [noteName], [noteOctave], [fraction] of its [Note] are the
    fields of [Note] above, and its [playNote] computes the frequency by the
    expression of [getFreq]. *)

Definition PitchBoard_overtones : list num :=
  [Fin 1; Fin (1 / 2); Fin 0; Fin 0; Fin (1 / 4)].

(** [overtones.reduce((a, b) => a+b)] on the five weights. *)
Definition PitchBoard_overtonesSum : num :=
  fold_left nadd (tl PitchBoard_overtones) (Fin 1).

(** The loop over [j] that accumulates [nowBuffering[i]], from index [j] on
    over the weights [overtones[j..]]. *)
Fixpoint PitchBoard_loop (overtones : list num) (j : nat) (freq : num)
    (i : nat) (rate : num) (sample : num) : num :=
  match overtones with
  | [] => sample
  | w :: rest =>
      let overtoneFreq := nmul freq (Fin (INR (j + 1))) in
      let wave :=
        Math_sin (ndiv (nmul (nmul (nmul (Fin 2) Math_PI) overtoneFreq)
                             (Fin (INR i)))
                       rate) in
      let amplitude := lognormal (ndiv (nmul (Fin 50) (Fin (INR i))) rate) in
      PitchBoard_loop rest (S j) freq i rate
        (nadd sample
              (nmul (nmul (ndiv w PitchBoard_overtonesSum) amplitude) wave))
  end.

(** Sample [i] of a channel rendered by [playFreq(freq, time)]. *)
Definition PitchBoard_sample (context : Host) (freq : num) (i : nat) : num :=
  PitchBoard_loop PitchBoard_overtones 0 freq i (sampleRate context) (Fin 0).

(** The calls of [playFreq(freq, time)], in order. *)
Definition PitchBoard_playFreq_calls (context : Host) (freq time : num)
  : list call :=
  let frames := nmul (sampleRate context) time in
  let buffer := createBuffer context 2 frames (sampleRate context) in
  [ CreateBufferSource;
    CreateBuffer 2 frames (sampleRate context);
    Start (map (fun _ => map (PitchBoard_sample context freq)
                             (seq 0 (channelLength buffer)))
               (seq 0 (numberOfChannels buffer))) ].

(** [Note.play(bpm, callback)], through [playNote] and [playFreq]. *)
Definition PitchBoard_play (context : Host) (this : Note) (bpm : num)
    (w : world) : world :=
  let secondsPerWholeNote := ndiv (Fin 60) bpm in
  let seconds := nmul secondsPerWholeNote (Fin (Note_length this)) in
  setTimeout (nmul (Fin 1000) seconds)
    (fold_left (fun w c => emit c w)
               (PitchBoard_playFreq_calls context (getFreq this) seconds) w).

(** One activation of the closure [nextNote] of [playNotes(notes, bpm)]: past
    the end of the array it does nothing. *)
Definition PitchBoard_nextNote (context : Host) (notes : list Note)
    (bpm : num) (s : sequencer) : sequencer :=
  match nth_error notes (i s) with
  | Some note => mkSequencer (S (i s)) (PitchBoard_play context note bpm (host s))
  | None => s
  end.

(** [playNotes(notes, bpm)], run until no timer is armed. *)
Definition PitchBoard_playNotes (context : Host) (notes : list Note)
    (bpm : num) : option sequencer :=
  run_timers (List.length notes) (PitchBoard_nextNote context notes bpm)
    (PitchBoard_nextNote context notes bpm (mkSequencer 0 initial)).

(** ** The second version: a sequencer of notes only

    [Instrument.playNote] and [Instrument.playNotes] of the version without
    [Rest], whose waveform function is [(t, freq) => sample]. *)

(** The calls of [_playFreq(freq, time)] of that version. *)
Definition notesOnly_playFreq_calls (waveformFunc : num -> num -> num)
    (context : Host) (freq time : num) : list call :=
  let frames := nmul (sampleRate context) time in
  let buffer := createBuffer context 2 frames (sampleRate context) in
  [ CreateBufferSource;
    CreateBuffer 2 frames (sampleRate context);
    Start (map (fun _ =>
                  map (fun i => waveformFunc
                                  (ndiv (Fin (INR i)) (sampleRate context))
                                  freq)
                      (seq 0 (channelLength buffer)))
               (seq 0 (numberOfChannels buffer))) ].

(** [Instrument.playNote(note, bpm, callback)] of that version. *)
Definition notesOnly_playNote (waveformFunc : num -> num -> num)
    (context : Host) (note : Note) (bpm : num) (w : world) : world :=
  let secondsPerWholeNote := ndiv (Fin 60) bpm in
  let seconds := nmul secondsPerWholeNote (Fin (Note_length note)) in
  setTimeout (nmul (Fin 1000) seconds)
    (fold_left (fun w c => emit c w)
               (notesOnly_playFreq_calls waveformFunc context (getFreq note)
                                         seconds) w).

Definition notesOnly_nextNote (waveformFunc : num -> num -> num)
    (context : Host) (notes : list Note) (bpm : num) (s : sequencer)
  : sequencer :=
  match nth_error notes (i s) with
  | Some note =>
      mkSequencer (S (i s))
                  (notesOnly_playNote waveformFunc context note bpm (host s))
  | None => mkSequencer (i s) (emit Callback (host s))
  end.

(** [Instrument.playNotes(notes, bpm, callback)] of that version. *)
Definition notesOnly_playNotes (waveformFunc : num -> num -> num)
    (context : Host) (notes : list Note) (bpm : num) : option sequencer :=
  run_timers (List.length notes) (notesOnly_nextNote waveformFunc context notes bpm)
    (notesOnly_nextNote waveformFunc context notes bpm (mkSequencer 0 initial)).

(** ** The range of binary64

    The arithmetic above is exact on finite values.  The definitions of this
    section take the range of the finite numbers of JavaScript into account:
    a result at or beyond [overflowBound] (halfway between the largest finite
    number and [2^1024]; the tie goes to [Infinity]) is [Infinity], a result
    of magnitude at most [underflowBound] (half the least positive number
    [2^-1074]; the tie goes to 0) is 0, and a result in between is taken as
    it is, unrounded. *)

Definition Rleb (x y : R) : bool := if Rle_dec x y then true else false.

(** The largest finite number. *)
Definition maxFinite : R := (2 - powerRZ 2 (-52)) * powerRZ 2 1023.

Definition overflowBound : R := (2 - powerRZ 2 (-53)) * powerRZ 2 1023.

Definition underflowBound : R := powerRZ 2 (-1075).

(** [finite64 x]: the real [x] is within the finite numbers. *)
Definition finite64 (x : R) : Prop := Rabs x <= maxFinite.

(** [number64 x]: [x] has the magnitude of a finite number, 0 or from the
    least positive number [2^-1074] to the largest. *)
Definition number64 (x : R) : Prop :=
  x = 0 \/ powerRZ 2 (-1074) <= Rabs x <= maxFinite.

(** The number that a real result becomes. *)
Definition fl (x : R) : num :=
  if Rleb overflowBound x then PInf
  else if Rleb x (- overflowBound) then NInf
  else if Rleb (Rabs x) underflowBound then Fin 0
  else Fin x.

(** The library once more, over arithmetic with the range of binary64: each
    operation below is the one of the same name above followed by [fl], and
    each function of the library is the text of the one above, read with
    these operations.  The remainder [%] is exact in binary64 and is taken
    from above as it is. *)
Module Binary64.

Definition rnd (a : num) : num :=
  match a with
  | Fin x => fl x
  | PInf | NInf | NaN => a
  end.

Definition nadd (a b : num) : num := rnd (nadd a b).
Definition nsub (a b : num) : num := rnd (nsub a b).
Definition nmul (a b : num) : num := rnd (nmul a b).
Definition ndiv (a b : num) : num := rnd (ndiv a b).
Definition Math_sqrt (a : num) : num := rnd (Math_sqrt a).
Definition Math_log (a : num) : num := rnd (Math_log a).
Definition Math_sin (a : num) : num := rnd (Math_sin a).
Definition Math_pow (b e : num) : num := rnd (Math_pow b e).

(** [Note.getFreq()] *)
Definition getFreq (this : Note) : num :=
  let octaveScale := Math_pow (Fin 2) (nsub (Fin (IZR (Note_octave this))) (Fin 8)) in
  nmul octaveScale (ToNumber (get noteFreqs (Note_name this))).

(** [attackAndDecay(x, attackPoint, decayPoint)] *)
Definition attackAndDecay (x attackPoint decayPoint : num) : num :=
  if nlt x attackPoint then nmul (ndiv (Fin 1) attackPoint) x
  else if nlt x decayPoint then Fin 1
  else
    let slope := ndiv (Fin (-1)) (nsub (Fin 1) decayPoint) in
    nadd (nmul slope (nsub x decayPoint)) (Fin 1).

(** [lognormal(x)] *)
Definition lognormal (x : num) : num :=
  nmul (ndiv (Fin 1) (Math_sqrt (nmul (Fin 2) Math_PI)))
       (Math_pow Math_E
          (nmul (ndiv (Fin (-1)) (Fin 2)) (Math_pow (Math_log x) (Fin 2)))).

(** [Instrument.WAVES] *)
Definition SQUARE (t : num) : num :=
  if nlt (nrem t (Fin 1)) (Fin 0.5) then Fin 1 else Fin (-1).

Definition TRIANGLE (t : num) : num :=
  nsub (nmul (Fin 2) (nrem t (Fin 1))) (Fin 1).

Definition SINE (t : num) : num :=
  Math_sin (nmul (nmul (Fin 2) Math_PI) t).

(** [overtones.reduce((a, b) => a+b)] *)
Definition reduce_add (overtones : list num) : completion num :=
  match overtones with
  | [] => Throw TypeError
  | a :: rest => Normal (fold_left nadd rest a)
  end.

(** The loop of the waveform function of [Instrument]. *)
Fixpoint overtone_loop (waveFunc : num -> num) (overtones : list num)
    (i : nat) (t freq tmax sample : num) : num :=
  match overtones with
  | [] => sample
  | w :: rest =>
      let overtoneFreq := nmul freq (Fin (INR (i + 1))) in
      let wave := waveFunc (nmul overtoneFreq t) in
      let amplitude :=
        nmul w (attackAndDecay (ndiv t tmax) (Fin 0.1) (Fin 0.5)) in
      overtone_loop waveFunc rest (S i) t freq tmax
        (nadd sample (nmul amplitude wave))
  end.

(** [new Instrument(overtones, waveFunc)] *)
Definition Instrument (overtones : list num) (waveFunc : option (num -> num))
  : completion RawInstrument :=
  match waveFunc with
  | None => Throw ReferenceError
  | Some waveFunc =>
      match reduce_add overtones with
      | Throw e => Throw e
      | Normal overtoneSum =>
          Normal (mkRawInstrument (fun t freq tmax =>
            ndiv (overtone_loop waveFunc overtones 0 t freq tmax (Fin 0))
                 overtoneSum))
      end
  end.

(** The loop of the waveform function of [SimpleInstrument]. *)
Fixpoint simple_loop (overtones : list num) (i : nat) (t freq sample : num)
  : num :=
  match overtones with
  | [] => sample
  | w :: rest =>
      let overtoneFreq := nmul freq (Fin (INR (i + 1))) in
      let wave :=
        Math_sin (nmul (nmul (nmul (Fin 2) Math_PI) overtoneFreq) t) in
      let amplitude := nmul w (lognormal (nmul (Fin 50) t)) in
      simple_loop rest (S i) t freq (nadd sample (nmul amplitude wave))
  end.

(** [new SimpleInstrument(overtones)] of the log-normal version. *)
Definition SimpleInstrument (overtones : list num)
  : completion (num -> num -> num) :=
  match reduce_add overtones with
  | Throw e => Throw e
  | Normal overtoneSum =>
      Normal (fun t freq =>
        ndiv (simple_loop overtones 0 t freq (Fin 0)) overtoneSum)
  end.

End Binary64.

(** ** A host whose [createBuffer] may raise

    The sequencer above takes the calls to the host to return.  Here
    [createBuffer] either raises an exception of the host's ([inl]) or hands
    back a buffer ([inr]).  The library has no [try]: an exception of the
    host's leaves [_playFreq] at once. *)

Module Raising.

Record Host (E : Type) : Type := mkHost {
  sampleRate : num;
  createBuffer : nat -> num -> num -> E + AudioBuffer
}.
Arguments mkHost {E} sampleRate createBuffer.
Arguments sampleRate {E} h.
Arguments createBuffer {E} h channels frames rate.

(** [RawInstrument._playFreq(freq, time)]: the host after the call, and the
    exception if one left it. *)
Definition _playFreq {E : Type} (this : RawInstrument) (context : Host E)
    (freq time : num) (w : world) : world * option E :=
  let w1 := emit CreateBufferSource w in
  let frames := nmul (sampleRate context) time in
  let w2 := emit (CreateBuffer 2 frames (sampleRate context)) w1 in
  match createBuffer context 2 frames (sampleRate context) with
  | inl e => (w2, Some e)
  | inr buffer =>
      (emit (Start (map (fun _ =>
                           map (fun i => waveformFunc this
                                           (ndiv (Fin (INR i)) (sampleRate context))
                                           freq time)
                               (seq 0 (channelLength buffer)))
                        (seq 0 (numberOfChannels buffer))))
            w2,
       None)
  end.



End Raising.

(** A host whose calls return, as a host that may raise. *)
Definition returning {E : Type} (context : Host) : Raising.Host E :=
  Raising.mkHost (sampleRate context)
    (fun channels frames rate => inr (createBuffer context channels frames rate)).

(** ** Objects for the examples *)

(** The instrument [new Instrument([1], Instrument.WAVES.SINE)]. *)
Definition sineInstrument : RawInstrument :=
  mkRawInstrument (fun t freq tmax =>
    ndiv (overtone_loop SINE [Fin 1] 0 t freq tmax (Fin 0)) (Fin 1)).

(** A host for the examples of the sequencer, with 8 samples per second,
    whose [createBuffer] returns and hands back the channels asked for, each
    as long as the frame count, truncated.  The examples ask it for positive
    frame counts only; a host whose calls all return has to answer the other
    requests as well, and this one answers them with an empty buffer
    ([Raising.audioContext] is the context that rejects them). *)
Definition smallHost : Host :=
  mkHost (Fin 8)
         (fun channels frames _ =>
            mkAudioBuffer channels
              (match frames with
               | Fin r => Z.to_nat (Rtrunc r)
               | _ => 0%nat
               end)).

(** The instrument [new Instrument([2, -1], Instrument.WAVES.SQUARE)]: the
    weights sum to 1. *)
Definition skewedInstrument : RawInstrument :=
  mkRawInstrument (fun t freq tmax =>
    ndiv (overtone_loop SQUARE [Fin 2; Fin (-1)] 0 t freq tmax (Fin 0))
         (Fin (2 + -1))).

(** The sequence of the scenario: a quarter note, a quarter rest, a quarter
    note. *)
Definition scenario : list entry :=
  [ ENote (mkNote "A" 4 (1 / 4)); ERest (mkRest (1 / 4));
    ENote (mkNote "A" 4 (1 / 4)) ].

(** The twelve pitch classes in ascending order, by their sharp names. *)
Definition chromatic : list string :=
  [ "C"; "C#"; "D"; "D#"; "E"; "F"; "F#"; "G"; "G#"; "A"; "A#"; "B" ]%string.

(** * Proofs *)

(** ** Comparisons and arithmetic on finite numbers *)

Lemma Rltb_true (x y : R) : x < y -> Rltb x y = true.
Proof. intros H. unfold Rltb. destruct (Rlt_dec x y); [reflexivity | contradiction]. Qed.

Lemma Rltb_false (x y : R) : y <= x -> Rltb x y = false.
Proof. intros H. unfold Rltb. destruct (Rlt_dec x y); [lra | reflexivity]. Qed.

Lemma Reqb_true (x y : R) : x = y -> Reqb x y = true.
Proof. intros H. unfold Reqb. destruct (Req_dec_T x y); [reflexivity | contradiction]. Qed.

Lemma Reqb_false (x y : R) : x <> y -> Reqb x y = false.
Proof. intros H. unfold Reqb. destruct (Req_dec_T x y); [contradiction | reflexivity]. Qed.

Ltac decide_R :=
  repeat first
    [ rewrite Rltb_true by lra
    | rewrite Rltb_false by lra
    | rewrite Reqb_true by lra
    | rewrite Reqb_false by lra ].

Lemma ndiv_Fin (x y : R) : y <> 0 -> ndiv (Fin x) (Fin y) = Fin (x / y).
Proof. intros H. simpl. now rewrite Reqb_false. Qed.

Lemma Fin_eq (x y : R) : x = y -> Fin x = Fin y.
Proof. now intros ->. Qed.

Lemma Normal_inj (A : Type) (a b : A) : Normal a = Normal b -> a = b.
Proof. now intros [= ->]. Qed.

(** ** The pitch table *)

Lemma octaveScale_Fin (o : Z) :
  Math_pow (Fin 2) (nsub (Fin (IZR o)) (Fin 8)) = Fin (powerRZ 2 (o - 8)).
Proof.
  cbn [nsub nneg nadd Math_pow].
  destruct (Req_dec_T (IZR o + - 8) 0) as [E | E].
  - rewrite Reqb_true by exact E.
    assert (o = 8%Z) as -> by (apply eq_IZR; lra).
    reflexivity.
  - rewrite Reqb_false by exact E.
    rewrite Rltb_true by lra.
    apply Fin_eq.
    rewrite powerRZ_Rpower by lra.
    f_equal. rewrite minus_IZR. lra.
Qed.

Lemma getFreq_table (name : string) (o : Z) (l : R) :
  getFreq (mkNote name o l)
  = nmul (Fin (powerRZ 2 (o - 8))) (ToNumber (get noteFreqs name)).
Proof. unfold getFreq. cbn [Note_octave Note_name]. now rewrite octaveScale_Fin. Qed.

Lemma powerRZ_2_pos (k : Z) : 0 < powerRZ 2 k.
Proof. apply powerRZ_lt. lra. Qed.

Lemma noteFreqs_pos (name : string) (f : R) :
  get noteFreqs name = Some f -> 0 < f.
Proof.
  unfold noteFreqs. cbn [get].
  repeat (destruct (String.eqb name _);
          [ intros [= <-]; lra | ]).
  discriminate.
Qed.

Lemma getFreq_recognized (name : string) (o : Z) (l : R) :
  recognized name = true ->
  exists f, 0 < f /\ get noteFreqs name = Some f
            /\ getFreq (mkNote name o l) = Fin (powerRZ 2 (o - 8) * f).
Proof.
  unfold recognized. intros H.
  destruct (get noteFreqs name) as [f |] eqn:E; [ | discriminate].
  exists f. split; [ now apply (noteFreqs_pos name) | split; [reflexivity | ] ].
  rewrite getFreq_table, E. reflexivity.
Qed.

(** ** The range of binary64 *)

Lemma Rleb_true (x y : R) : x <= y -> Rleb x y = true.
Proof. intros H. unfold Rleb. destruct (Rle_dec x y); [reflexivity | contradiction]. Qed.

Lemma Rleb_false (x y : R) : y < x -> Rleb x y = false.
Proof. intros H. unfold Rleb. destruct (Rle_dec x y); [lra | reflexivity]. Qed.

Lemma powerRZ_2_mono (a b : Z) : (a <= b)%Z -> powerRZ 2 a <= powerRZ 2 b.
Proof.
  intros H. replace b with (a + (b - a))%Z by lia.
  rewrite powerRZ_add by lra.
  assert (1 <= powerRZ 2 (b - a)) as H1.
  { destruct (b - a)%Z eqn:E; try lia.
    - simpl. lra.
    - simpl. apply pow_R1_Rle. lra. }
  pose proof (powerRZ_2_pos a). nra.
Qed.

Lemma powerRZ_2_S (a : Z) : powerRZ 2 (a + 1) = 2 * powerRZ 2 a.
Proof. rewrite powerRZ_add by lra. simpl. lra. Qed.

Lemma powerRZ_2_12 (a : Z) : powerRZ 2 (a + 12) = 4096 * powerRZ 2 a.
Proof. rewrite powerRZ_add by lra. simpl. lra. Qed.

Lemma ulp_small : 0 < powerRZ 2 (-53) <= 1 / 128 /\ 0 < powerRZ 2 (-52) <= 1 / 64.
Proof.
  pose proof (powerRZ_2_pos (-53)). pose proof (powerRZ_2_pos (-52)).
  pose proof (powerRZ_2_mono (-53) (-7) ltac:(lia)) as H1.
  pose proof (powerRZ_2_mono (-52) (-6) ltac:(lia)) as H2.
  assert (powerRZ 2 (-7) = 1 / 128) as E7 by (simpl; lra).
  assert (powerRZ 2 (-6) = 1 / 64) as E6 by (simpl; lra).
  lra.
Qed.

Lemma maxFinite_range :
  powerRZ 2 1023 <= maxFinite /\ maxFinite < overflowBound
  /\ overflowBound < powerRZ 2 1024.
Proof.
  unfold maxFinite, overflowBound.
  pose proof ulp_small as [[H1 H2] [H3 H4]].
  pose proof (powerRZ_2_pos 1023) as Hp.
  assert (powerRZ 2 (-53) < powerRZ 2 (-52)) as Hlt.
  { replace (-52)%Z with (-53 + 1)%Z by lia. rewrite powerRZ_2_S. lra. }
  replace 1024%Z with (1023 + 1)%Z by lia. rewrite powerRZ_2_S.
  repeat split; nra.
Qed.

Lemma underflowBound_range : 0 < underflowBound <= 1 / 1048576.
Proof.
  unfold underflowBound. split; [apply powerRZ_2_pos | ].
  pose proof (powerRZ_2_mono (-1075) (-20) ltac:(lia)) as H.
  assert (powerRZ 2 (-20) = 1 / 1048576) as E by (simpl; lra).
  lra.
Qed.

Lemma maxFinite_large : 1048576 <= maxFinite.
Proof.
  pose proof maxFinite_range as (H1 & _).
  pose proof (powerRZ_2_mono 20 1023 ltac:(lia)) as H.
  assert (powerRZ 2 20 = 1048576) as E by (simpl; lra).
  lra.
Qed.

Lemma overflowBound_large : 1048576 <= overflowBound.
Proof.
  pose proof maxFinite_range as (_ & H & _). pose proof maxFinite_large. lra.
Qed.

(** A result within the range is kept; 0 is kept; a result of small
    magnitude becomes 0 and a large one an infinity. *)
Lemma fl_Fin (x : R) :
  x = 0 \/ underflowBound < Rabs x -> Rabs x < overflowBound -> fl x = Fin x.
Proof.
  intros Hlo Hhi. pose proof underflowBound_range as Hu.
  unfold fl. unfold Rabs in *.
  destruct (Rcase_abs x); destruct Hlo as [-> | Hlo]; try lra;
    repeat first [rewrite Rleb_false by lra | rewrite Rleb_true by lra];
    reflexivity.
Qed.

Lemma fl_underflow (x : R) : Rabs x <= underflowBound -> fl x = Fin 0.
Proof.
  intros H. pose proof underflowBound_range. pose proof overflowBound_large.
  unfold fl. rewrite (Rleb_true _ _ H).
  unfold Rabs in H.
  destruct (Rcase_abs x); rewrite !Rleb_false by lra; reflexivity.
Qed.

Lemma fl_0 : fl 0 = Fin 0.
Proof. apply fl_underflow. rewrite Rabs_R0. pose proof underflowBound_range. lra. Qed.

Lemma fl_overflow (x : R) : overflowBound <= x -> fl x = PInf.
Proof. intros H. unfold fl. now rewrite Rleb_true. Qed.

(** A result that does not overflow is kept, or is small and becomes 0. *)
Lemma fl_bounded (x : R) :
  - overflowBound < x < overflowBound ->
  exists y, fl x = Fin y
            /\ (y = x \/ y = 0 /\ - underflowBound <= x <= underflowBound).
Proof.
  intros H. destruct (Rle_dec (Rabs x) underflowBound) as [Hu | Hu].
  - exists 0. split; [now apply fl_underflow | right; split; [reflexivity | ] ].
    unfold Rabs in Hu. destruct (Rcase_abs x); lra.
  - exists x. split; [ | now left].
    apply fl_Fin; [right; lra | ].
    unfold Rabs. destruct (Rcase_abs x); lra.
Qed.

(** The four outcomes of a result. *)
Lemma fl_spec (x : R) :
  (overflowBound <= x /\ fl x = PInf)
  \/ (x <= - overflowBound /\ fl x = NInf)
  \/ exists y, fl x = Fin y /\ - overflowBound < x < overflowBound
               /\ (y = x \/ y = 0 /\ - underflowBound <= x <= underflowBound).
Proof.
  destruct (Rle_dec overflowBound x) as [H1 | H1].
  - left. split; [exact H1 | now apply fl_overflow].
  - destruct (Rle_dec x (- overflowBound)) as [H2 | H2].
    + right; left. split; [exact H2 | ].
      pose proof overflowBound_large.
      unfold fl. rewrite Rleb_false by lra. now rewrite Rleb_true.
    + right; right.
      destruct (fl_bounded x) as (y & Hy & Hc); [lra | ].
      exists y. split; [exact Hy | split; [lra | exact Hc] ].
Qed.

(** ** The pitch table within the range *)

Lemma noteFreqs_range (name : string) (f : R) :
  get noteFreqs name = Some f -> 4186 <= f <= 7903.
Proof.
  unfold noteFreqs. cbn [get].
  repeat (destruct (String.eqb name _);
          [ intros [= <-]; lra | ]).
  discriminate.
Qed.

Lemma IZR_apart (z : Z) : z <> 0%Z -> 1 <= Rabs (IZR z).
Proof.
  intros Hz. unfold Rabs. destruct (Rcase_abs (IZR z)) as [H | H].
  - apply lt_IZR in H. rewrite <- opp_IZR. apply IZR_le. lia.
  - apply Rge_le in H. apply le_IZR in H. apply IZR_le. lia.
Qed.

Lemma Binary64_octave (o : Z) :
  (-2000 <= o <= 2000)%Z ->
  Binary64.nsub (Fin (IZR o)) (Fin 8) = Fin (IZR o + - (8)).
Proof.
  intros Ho. unfold Binary64.nsub. cbn [nsub nneg nadd Binary64.rnd].
  pose proof underflowBound_range. pose proof overflowBound_large.
  replace (IZR o + - (8)) with (IZR (o - 8)) by (rewrite minus_IZR; lra).
  apply fl_Fin.
  - destruct (Z.eq_dec (o - 8) 0) as [-> | Hne]; [now left | right].
    pose proof (IZR_apart (o - 8) Hne). lra.
  - assert (-2008 <= IZR (o - 8) <= 1992) as Hb
      by (split; apply IZR_le; lia).
    unfold Rabs. destruct (Rcase_abs _); lra.
Qed.

(** The octave scale [Math.pow(2, octave - 8)] within the range: a power of
    two from octave -1066 to octave 1031, 0 below. *)
Lemma Binary64_octaveScale (o : Z) :
  (-1066 <= o <= 1031)%Z ->
  Binary64.Math_pow (Fin 2) (Binary64.nsub (Fin (IZR o)) (Fin 8))
  = Fin (powerRZ 2 (o - 8)).
Proof.
  intros Ho. rewrite Binary64_octave by lia.
  unfold Binary64.Math_pow.
  pose proof (octaveScale_Fin o) as E. cbn [nsub nneg nadd] in E. rewrite E.
  cbn [Binary64.rnd].
  pose proof (powerRZ_2_pos (o - 8)) as Hp.
  pose proof (powerRZ_2_mono (-1074) (o - 8) ltac:(lia)) as Hlo.
  pose proof (powerRZ_2_mono (o - 8) 1023 ltac:(lia)) as Hhi.
  pose proof maxFinite_range as (H1 & H2 & _).
  assert (underflowBound < powerRZ 2 (-1074)) as Hu.
  { unfold underflowBound. replace (-1074)%Z with (-1075 + 1)%Z by lia.
    rewrite powerRZ_2_S. pose proof (powerRZ_2_pos (-1075)). lra. }
  apply fl_Fin; rewrite Rabs_pos_eq by lra; [right | ]; lra.
Qed.

Lemma Binary64_octaveScale_low (o : Z) :
  (-2000 <= o <= -1067)%Z ->
  Binary64.Math_pow (Fin 2) (Binary64.nsub (Fin (IZR o)) (Fin 8)) = Fin 0.
Proof.
  intros Ho. rewrite Binary64_octave by lia.
  unfold Binary64.Math_pow.
  pose proof (octaveScale_Fin o) as E. cbn [nsub nneg nadd] in E. rewrite E.
  cbn [Binary64.rnd].
  pose proof (powerRZ_2_pos (o - 8)) as Hp.
  pose proof (powerRZ_2_mono (o - 8) (-1075) ltac:(lia)) as Hhi.
  apply fl_underflow. rewrite Rabs_pos_eq by lra. exact Hhi.
Qed.

(** [getFreq] within the range, for a name the table lists: the exact
    product from octave -1066 to octave 1019. *)
Lemma Binary64_getFreq_recognized (name : string) (o : Z) (l f : R) :
  get noteFreqs name = Some f ->
  (-1066 <= o <= 1019)%Z ->
  Binary64.getFreq (mkNote name o l) = Fin (powerRZ 2 (o - 8) * f)
  /\ powerRZ 2 (-1074) < powerRZ 2 (o - 8) * f
  /\ powerRZ 2 (o - 8) * f <= maxFinite.
Proof.
  intros E Ho. pose proof (noteFreqs_range name f E) as Hf.
  pose proof (powerRZ_2_pos (o - 8)) as Hp.
  pose proof (powerRZ_2_mono (-1074) (o - 8) ltac:(lia)) as Hlo.
  pose proof (powerRZ_2_mono (o - 8) 1011 ltac:(lia)) as Hhi.
  pose proof (powerRZ_2_pos (-1074)) as Hp'.
  pose proof (powerRZ_2_pos 1011) as Hq.
  pose proof maxFinite_range as (_ & H2 & _).
  pose proof ulp_small as [_ [H3 H4]].
  assert (powerRZ 2 (-1074) < powerRZ 2 (o - 8) * f) as Hlow by nra.
  assert (powerRZ 2 (o - 8) * f <= maxFinite) as Hhigh.
  { unfold maxFinite. replace 1023%Z with (1011 + 12)%Z by lia.
    rewrite powerRZ_2_12.
    assert (powerRZ 2 (o - 8) * f <= powerRZ 2 1011 * 7903) by nra.
    nra. }
  split; [ | split; assumption ].
  unfold Binary64.getFreq. cbn [Note_octave Note_name].
  rewrite Binary64_octaveScale by lia. rewrite E.
  unfold Binary64.nmul. cbn [ToNumber nmul Binary64.rnd].
  assert (underflowBound < powerRZ 2 (-1074)) as Hu.
  { unfold underflowBound. replace (-1074)%Z with (-1075 + 1)%Z by lia.
    rewrite powerRZ_2_S. pose proof (powerRZ_2_pos (-1075)). lra. }
  apply fl_Fin; rewrite Rabs_pos_eq by lra; [right | ]; lra.
Qed.

(** Against C8 as stated: the frequency of C is 0 at octave -1067 and a
    positive number at octave -1066, which is not twice 0; at octave 1020 it
    is [Infinity]. *)
Lemma getFreq_octave_out_of_range :
  Binary64.getFreq (mkNote "C" (-1067) 1) = Fin 0
  /\ Binary64.nmul (Fin 2) (Binary64.getFreq (mkNote "C" (-1067) 1)) = Fin 0
  /\ (exists f, 0 < f /\ Binary64.getFreq (mkNote "C" (-1067 + 1) 1) = Fin f)
  /\ Binary64.getFreq (mkNote "C" (-1067 + 1) 1)
     <> Binary64.nmul (Fin 2) (Binary64.getFreq (mkNote "C" (-1067) 1))
  /\ Binary64.getFreq (mkNote "C" 1020 1) = PInf.
Proof.
  assert (Binary64.getFreq (mkNote "C" (-1067) 1) = Fin 0) as H0.
  { unfold Binary64.getFreq. cbn [Note_octave Note_name].
    rewrite Binary64_octaveScale_low by lia.
    unfold Binary64.nmul.
    cbv beta iota delta [get noteFreqs String.eqb Ascii.eqb Bool.eqb ToNumber].
    cbn [nmul Binary64.rnd]. rewrite Rmult_0_l. apply fl_0. }
  assert (Binary64.nmul (Fin 2) (Fin 0) = Fin 0) as H2.
  { unfold Binary64.nmul. cbn [nmul Binary64.rnd]. rewrite Rmult_0_r. apply fl_0. }
  destruct (Binary64_getFreq_recognized "C" (-1067 + 1) 1 4186.01 eq_refl
              ltac:(lia)) as (H1 & Hlo & _).
  pose proof (powerRZ_2_pos (-1074)) as Hp.
  split; [exact H0 | ]. rewrite H0, H2.
  split; [reflexivity | ].
  split; [ eexists; split; [ | exact H1 ]; lra | ].
  split.
  - rewrite H1. intros [= Hz]. lra.
  - unfold Binary64.getFreq. cbn [Note_octave Note_name].
    rewrite Binary64_octaveScale by lia.
    unfold Binary64.nmul.
    cbv beta iota delta [get noteFreqs String.eqb Ascii.eqb Bool.eqb ToNumber].
    cbn [nmul Binary64.rnd]. apply fl_overflow.
    pose proof maxFinite_range as (_ & _ & H).
    replace (1020 - 8)%Z with 1012%Z by lia.
    replace 1024%Z with (1012 + 12)%Z in H by lia.
    rewrite powerRZ_2_12 in H. pose proof (powerRZ_2_pos 1012). lra.
Qed.

(** C8, amended.  For every name the pitch table lists and every integer
    octave [o] from -1026 to 1018, the frequency at octave [o + 1] is twice
    the frequency at octave [o], and both are positive finite numbers. *)
Theorem getFreq_doubles_in_range (name : string) (o : Z) (l : R) :
  recognized name = true ->
  (-1026 <= o <= 1018)%Z ->
  Binary64.getFreq (mkNote name (o + 1) l)
  = Binary64.nmul (Fin 2) (Binary64.getFreq (mkNote name o l))
  /\ exists f,
       Binary64.getFreq (mkNote name o l) = Fin f
       /\ Binary64.getFreq (mkNote name (o + 1) l) = Fin (2 * f)
       /\ 0 < f /\ 2 * f <= maxFinite.
Proof.
  intros Hname Ho. unfold recognized in Hname.
  destruct (get noteFreqs name) as [f |] eqn:E; [ | discriminate].
  destruct (Binary64_getFreq_recognized name o l f E ltac:(lia))
    as (H0 & Hlo & Hhi).
  destruct (Binary64_getFreq_recognized name (o + 1) l f E ltac:(lia))
    as (H1 & Hlo1 & Hhi1).
  replace (o + 1 - 8)%Z with ((o - 8) + 1)%Z in * by lia.
  rewrite powerRZ_2_S in *.
  pose proof (powerRZ_2_pos (-1074)) as Hp.
  pose proof maxFinite_range as (_ & Hm & _).
  pose proof underflowBound_range.
  assert (underflowBound < powerRZ 2 (-1074)) as Hu.
  { unfold underflowBound. replace (-1074)%Z with (-1075 + 1)%Z by lia.
    rewrite powerRZ_2_S. pose proof (powerRZ_2_pos (-1075)). lra. }
  split.
  - rewrite H0, H1. unfold Binary64.nmul. cbn [nmul Binary64.rnd].
    symmetry. rewrite fl_Fin.
    + apply Fin_eq. ring.
    + right. rewrite Rabs_pos_eq by lra. lra.
    + rewrite Rabs_pos_eq by lra. lra.
  - exists (powerRZ 2 (o - 8) * f). split; [exact H0 | ].
    split; [rewrite H1; apply Fin_eq; ring | ]. split; lra.
Qed.

Lemma getFreq_doubles_in_range_witness :
  recognized "A" = true
  /\ (-1026 <= 4 <= 1018)%Z
  /\ Binary64.getFreq (mkNote "A" (4 + 1) (1 / 4))
     = Binary64.nmul (Fin 2) (Binary64.getFreq (mkNote "A" 4 (1 / 4))).
Proof.
  split; [reflexivity | split; [lia | ] ].
  apply (getFreq_doubles_in_range "A" 4 (1 / 4)); [reflexivity | lia].
Defined.

(** C9.  The two names of each of the five enharmonic pairs resolve to the
    same (positive, finite) frequency at every octave. *)
Theorem getFreq_enharmonic (a b : string) (o : Z) (la lb : R) :
  In (a, b) enharmonic ->
  exists f, 0 < f /\ getFreq (mkNote a o la) = Fin f
            /\ getFreq (mkNote b o lb) = Fin f.
Proof.
  intros H.
  assert (recognized a = true /\ get noteFreqs a = get noteFreqs b) as [Ha E].
  { cbn [enharmonic In] in H.
    repeat (destruct H as [[= <- <-] | H]; [split; reflexivity | ]).
    contradiction. }
  destruct (getFreq_recognized a o la Ha) as (f & Hf & Ef & Ho).
  exists (powerRZ 2 (o - 8) * f). split; [ | split ].
  - apply Rmult_lt_0_compat; [apply powerRZ_2_pos | exact Hf].
  - exact Ho.
  - rewrite getFreq_table, <- E, Ef. reflexivity.
Qed.

Lemma getFreq_enharmonic_witness :
  In ("C#"%string, "Db"%string) enharmonic
  /\ exists f, 0 < f /\ getFreq (mkNote "C#" 4 (1 / 4)) = Fin f
               /\ getFreq (mkNote "Db" 4 1) = Fin f.
Proof.
  split; [left; reflexivity | ].
  apply (getFreq_enharmonic "C#" "Db" 4 (1 / 4) 1). left; reflexivity.
Defined.

(** ** The piecewise-linear envelope *)

Lemma attackAndDecay_attack (x : R) :
  x < 0.1 -> attackAndDecay (Fin x) (Fin 0.1) (Fin 0.5) = Fin (10 * x).
Proof.
  intros H. unfold attackAndDecay. cbn [nlt]. decide_R.
  rewrite ndiv_Fin by lra. cbn [nmul]. apply Fin_eq. lra.
Qed.

Lemma attackAndDecay_hold (x : R) :
  0.1 <= x < 0.5 -> attackAndDecay (Fin x) (Fin 0.1) (Fin 0.5) = Fin 1.
Proof. intros H. unfold attackAndDecay. cbn [nlt]. now decide_R. Qed.

Lemma attackAndDecay_decay (x : R) :
  0.5 <= x -> attackAndDecay (Fin x) (Fin 0.1) (Fin 0.5) = Fin (2 - 2 * x).
Proof.
  intros H. unfold attackAndDecay. cbn [nlt]. decide_R.
  cbn [nsub nneg nadd]. rewrite ndiv_Fin by lra.
  cbn [nmul nadd]. apply Fin_eq.
  replace (1 + - (0.5)) with (1 / 2) by lra. lra.
Qed.

(** C4.  With the breakpoints 0.1 and 0.5 the envelope is 0 at 0, 1 at both
    breakpoints and 0 at 1; it does not decrease on [0, 0.1] and does not
    increase on [0.5, 1]. *)
Theorem attackAndDecay_shape :
  let envelope x := attackAndDecay (Fin x) (Fin 0.1) (Fin 0.5) in
  envelope 0 = Fin 0
  /\ envelope 0.1 = Fin 1
  /\ envelope 0.5 = Fin 1
  /\ envelope 1 = Fin 0
  /\ (forall x y, 0 <= x -> x <= y -> y <= 0.1 -> nle (envelope x) (envelope y))
  /\ (forall x y, 0.5 <= x -> x <= y -> y <= 1 -> nle (envelope y) (envelope x)).
Proof.
  cbv zeta. repeat split.
  - rewrite attackAndDecay_attack by lra. apply Fin_eq. lra.
  - apply attackAndDecay_hold. lra.
  - rewrite attackAndDecay_decay by lra. apply Fin_eq. lra.
  - rewrite attackAndDecay_decay by lra. apply Fin_eq. lra.
  - intros x y Hx Hxy Hy.
    destruct (Rlt_dec y 0.1) as [Hy' | Hy'].
    + rewrite !attackAndDecay_attack by lra. cbn [nle]. lra.
    + rewrite (attackAndDecay_hold y) by lra.
      destruct (Rlt_dec x 0.1) as [Hx' | Hx'].
      * rewrite attackAndDecay_attack by lra. cbn [nle]. lra.
      * rewrite attackAndDecay_hold by lra. cbn [nle]. lra.
  - intros x y Hx Hxy Hy.
    rewrite !attackAndDecay_decay by lra. cbn [nle]. lra.
Qed.

Lemma attackAndDecay_shape_witness :
  nle (attackAndDecay (Fin 0.05) (Fin 0.1) (Fin 0.5))
      (attackAndDecay (Fin 0.1) (Fin 0.1) (Fin 0.5))
  /\ nle (attackAndDecay (Fin 1) (Fin 0.1) (Fin 0.5))
         (attackAndDecay (Fin 0.75) (Fin 0.1) (Fin 0.5)).
Proof.
  destruct attackAndDecay_shape as (_ & _ & _ & _ & Hup & Hdown).
  split; [apply Hup | apply Hdown]; lra.
Defined.

(** ** The renderer and one entry of the sequence *)

Lemma emit_all (cs : list call) (w : world) :
  fold_left (fun w c => emit c w) cs w
  = mkWorld (now w) (trace w ++ map (fun c => (now w, c)) cs) (timers w).
Proof.
  revert w. induction cs as [| c cs IH]; intros w; cbn [fold_left map].
  - rewrite app_nil_r. now destruct w.
  - rewrite IH. unfold emit. cbn [now trace timers].
    now rewrite <- app_assoc.
Qed.

Lemma _playFreq_world (this : RawInstrument) (context : Host)
    (freq time : num) (w : world) :
  _playFreq this context freq time w
  = mkWorld (now w)
      (trace w ++ map (fun c => (now w, c))
                      (_playFreq_calls this context freq time))
      (timers w).
Proof. apply emit_all. Qed.

Lemma Rsum_app (l1 l2 : list R) : Rsum (l1 ++ l2) = Rsum l1 + Rsum l2.
Proof.
  unfold Rsum. induction l1 as [| x l1 IH]; simpl.
  - lra.
  - rewrite IH. lra.
Qed.

Section Sequencer.

Variable this : RawInstrument.
Variable context : Host.
Variable bpm : R.
Hypothesis bpm_pos : 0 < bpm.

Lemma secondsPerWholeNote_Fin : ndiv (Fin 60) (Fin bpm) = Fin (60 / bpm).
Proof. apply ndiv_Fin. lra. Qed.

Lemma playNote_world (e : entry) (w : world) :
  playNote this context e (Fin bpm) w
  = mkWorld (now w)
      (trace w ++ map (fun c => (now w, c)) (entryCalls this context bpm e))
      (timers w ++ [nadd (now w) (Fin (1000 * entrySeconds bpm e))]).
Proof.
  unfold playNote. rewrite secondsPerWholeNote_Fin.
  destruct e as [n | r]; cbn [nmul entryCalls].
  - rewrite _playFreq_world. unfold setTimeout. cbn [now trace timers].
    unfold entrySeconds. cbn [durationFraction].
    now rewrite map_app, app_assoc.
  - reflexivity.
Qed.

Lemma totalSeconds_app (l1 l2 : list entry) :
  totalSeconds bpm (l1 ++ l2) = totalSeconds bpm l1 + totalSeconds bpm l2.
Proof. unfold totalSeconds. now rewrite map_app, Rsum_app. Qed.

Lemma totalSeconds_snoc (l : list entry) (e : entry) :
  totalSeconds bpm (l ++ [e]) = totalSeconds bpm l + entrySeconds bpm e.
Proof.
  rewrite totalSeconds_app. unfold totalSeconds, entrySeconds.
  cbn [map Rsum fold_right]. lra.
Qed.

Lemma startOffset_prefix (pre rest : list entry) :
  startOffset bpm (pre ++ rest) (List.length pre) = totalSeconds bpm pre.
Proof.
  unfold startOffset. rewrite firstn_app, Nat.sub_diag, firstn_all.
  cbn [firstn]. now rewrite app_nil_r.
Qed.

Lemma nth_error_middle (pre rest : list entry) (e : entry) :
  nth_error (pre ++ e :: rest) (List.length pre) = Some e.
Proof. rewrite nth_error_app2, Nat.sub_diag by lia. reflexivity. Qed.

(** The run of the closure from entry [length pre] on: the clock is the
    scheduled start of that entry and no timer is armed. *)
Lemma run_from (rest pre : list entry) (tr : list (num * call)) (fuel : nat) :
  (List.length rest <= fuel)%nat ->
  run_timers fuel (nextNote this context (pre ++ rest) (Fin bpm))
    (nextNote this context (pre ++ rest) (Fin bpm)
       (mkSequencer (List.length pre)
          (mkWorld (Fin (1000 * totalSeconds bpm pre)) tr [])))
  = Some (mkSequencer (List.length (pre ++ rest))
            (mkWorld (Fin (1000 * totalSeconds bpm (pre ++ rest)))
               (tr ++ flat_map (entryAt this context bpm (pre ++ rest))
                               (seq (List.length pre) (List.length rest))
                   ++ [(Fin (1000 * totalSeconds bpm (pre ++ rest)), Callback)])
               [])).
Proof.
  revert pre tr fuel. induction rest as [| e rest IH]; intros pre tr fuel Hfuel.
  - rewrite app_nil_r. unfold nextNote. cbn [i host].
    assert (nth_error pre (List.length pre) = None) as ->
      by (apply nth_error_None; lia).
    unfold emit. cbn [now trace timers List.length seq flat_map app].
    destruct fuel; reflexivity.
  - destruct fuel as [| fuel]; [cbn [List.length] in Hfuel; lia | ].
    cbn [List.length] in Hfuel.
    unfold nextNote at 2. cbn [i host].
    rewrite nth_error_middle, playNote_world.
    cbn [now trace timers app nadd run_timers host i].
    replace (1000 * totalSeconds bpm pre + 1000 * entrySeconds bpm e)
      with (1000 * totalSeconds bpm (pre ++ [e]))
      by (rewrite totalSeconds_snoc; lra).
    replace (S (List.length pre)) with (List.length (pre ++ [e]))
      by (rewrite length_app; cbn [List.length]; lia).
    replace (pre ++ e :: rest) with ((pre ++ [e]) ++ rest)
      by (now rewrite <- app_assoc).
    rewrite IH by lia.
    do 3 f_equal.
    rewrite <- !app_assoc. f_equal.
    cbn [List.length seq flat_map].
    rewrite <- app_assoc. f_equal.
    + unfold entryAt. cbn [app].
      now rewrite nth_error_middle, startOffset_prefix.
    + rewrite length_app. cbn [List.length].
      now rewrite Nat.add_1_r.
Qed.

End Sequencer.

Lemma count_app (p : call -> bool) (l1 l2 : list (num * call)) :
  count p (l1 ++ l2) = (count p l1 + count p l2)%nat.
Proof. unfold count. now rewrite filter_app, length_app. Qed.

Lemma count_stamped (p : call -> bool) (t : num) (cs : list call) :
  count p (map (fun c => (t, c)) cs) = List.length (filter p cs).
Proof.
  unfold count. induction cs as [| c cs IH]; cbn [map filter snd].
  - reflexivity.
  - destruct (p c); cbn [List.length]; now rewrite IH.
Qed.

Lemma delays_app (l1 l2 : list (num * call)) :
  delays (l1 ++ l2) = delays l1 ++ delays l2.
Proof.
  induction l1 as [| [t c] l1 IH]; cbn [app delays].
  - reflexivity.
  - destruct c; cbn [app]; now rewrite IH.
Qed.


Section Run.

Variable this : RawInstrument.
Variable context : Host.
Variable bpm : R.
Hypothesis bpm_pos : 0 < bpm.

(** The calls of one entry: a note is rendered and submitted once, a rest
    not at all; neither invokes the completion callback; each arms one
    timer. *)
Lemma entryCalls_count (e : entry) :
  List.length (filter isCallback (entryCalls this context bpm e)) = 0%nat
  /\ List.length (filter isStart (entryCalls this context bpm e))
     = (if isNote e then 1 else 0)%nat
  /\ List.length (filter isCreateBuffer (entryCalls this context bpm e))
     = (if isNote e then 1 else 0)%nat.
Proof. destruct e; repeat split; reflexivity. Qed.

Lemma entryCalls_delays (t : num) (e : entry) :
  delays (map (fun c => (t, c)) (entryCalls this context bpm e))
  = [Fin (1000 * (60 / bpm * durationFraction e))].
Proof. destruct e; reflexivity. Qed.

(** Counting over the calls of the entries [length pre ..] of a list. *)
Lemma count_entries (p : call -> bool) (rest pre : list entry) :
  count p (flat_map (entryAt this context bpm (pre ++ rest))
                    (seq (List.length pre) (List.length rest)))
  = list_sum (map (fun e => List.length (filter p (entryCalls this context bpm e)))
                  rest).
Proof.
  revert pre. induction rest as [| e rest IH]; intros pre.
  - reflexivity.
  - cbn [List.length seq flat_map map list_sum fold_right].
    rewrite count_app. f_equal.
    + unfold entryAt. rewrite nth_error_middle. apply count_stamped.
    + specialize (IH (pre ++ [e])).
      rewrite <- app_assoc, length_app, Nat.add_1_r in IH. exact IH.
Qed.

Lemma delays_entries (rest pre : list entry) :
  delays (flat_map (entryAt this context bpm (pre ++ rest))
                   (seq (List.length pre) (List.length rest)))
  = map (fun e => Fin (1000 * (60 / bpm * durationFraction e))) rest.
Proof.
  revert pre. induction rest as [| e rest IH]; intros pre.
  - reflexivity.
  - cbn [List.length seq flat_map map]. rewrite delays_app.
    specialize (IH (pre ++ [e])).
    rewrite <- app_assoc, length_app, Nat.add_1_r in IH.
    cbn [app] in IH. rewrite IH.
    unfold entryAt. rewrite nth_error_middle, entryCalls_delays.
    reflexivity.
Qed.

(** The whole run of [playNotes]: one activation per entry and one more are
    enough. *)
Lemma playNotes_fuel_run (notes : list entry) (fuel : nat) :
  (List.length notes <= fuel)%nat ->
  playNotes_fuel fuel this context notes (Fin bpm)
  = Some (mkSequencer (List.length notes)
            (mkWorld (Fin (1000 * totalSeconds bpm notes))
               (flat_map (entryAt this context bpm notes)
                         (seq 0 (List.length notes))
                  ++ [(Fin (1000 * totalSeconds bpm notes), Callback)])
               [])).
Proof.
  intros Hfuel. unfold playNotes_fuel, initial.
  replace (Fin 0) with (Fin (1000 * totalSeconds bpm []))
    by (apply Fin_eq; unfold totalSeconds; cbn [map Rsum fold_right]; lra).
  exact (run_from this context bpm bpm_pos notes [] [] fuel Hfuel).
Qed.

Lemma playNotes_run (notes : list entry) :
  playNotes this context notes (Fin bpm)
  = Some (mkSequencer (List.length notes)
            (mkWorld (Fin (1000 * totalSeconds bpm notes))
               (flat_map (entryAt this context bpm notes)
                         (seq 0 (List.length notes))
                  ++ [(Fin (1000 * totalSeconds bpm notes), Callback)])
               [])).
Proof. apply playNotes_fuel_run. apply Nat.le_refl. Qed.



End Run.

Lemma callback_once (this : RawInstrument) (context : Host) (bpm : R)
    (notes : list entry) (t : num) :
  count isCallback
    (flat_map (entryAt this context bpm notes) (seq 0 (List.length notes))
       ++ [(t, Callback)]) = 1%nat.
Proof.
  rewrite count_app.
  pose proof (count_entries this context bpm isCallback notes []) as Hc.
  cbn [app List.length] in Hc. rewrite Hc. clear Hc.
  replace (list_sum _) with 0%nat; [reflexivity | ].
  induction notes as [| e notes IH]; [reflexivity | ].
  cbn [map list_sum fold_right].
  destruct (entryCalls_count this context bpm e) as (-> & _).
  exact IH.
Qed.

(** ** The sequencer: completion, order, rests *)

(** C2.  For every list of entries and every [bpm > 0] the run of
    [playNotes] ends (with any fuel from the length of the list on, and the
    same final state), with no timer left armed; the completion callback is
    invoked exactly once, as the last call; the timers armed before it are
    those of the entries, [1000 * (60/bpm * length)] milliseconds each, in
    order; and the scheduled clock at which the callback is invoked is their
    sum, [1000] times the sum over the entries of [60/bpm * length]. *)
Theorem playNotes_completes (this : RawInstrument) (context : Host)
    (notes : list entry) (bpm : R) :
  0 < bpm ->
  let total := Rsum (map (fun e => 60 / bpm * durationFraction e) notes) in
  exists s,
    playNotes this context notes (Fin bpm) = Some s
    /\ (forall fuel, (List.length notes <= fuel)%nat ->
          playNotes_fuel fuel this context notes (Fin bpm) = Some s)
    /\ timers (host s) = []
    /\ count isCallback (trace (host s)) = 1%nat
    /\ (exists before, trace (host s) = before ++ [(Fin (1000 * total), Callback)])
    /\ delays (trace (host s))
       = map (fun e => Fin (1000 * (60 / bpm * durationFraction e))) notes
    /\ now (host s) = Fin (1000 * total).
Proof.
  intros Hbpm total.
  eexists. split; [apply playNotes_run; exact Hbpm | ].
  split; [intros fuel Hfuel; now apply playNotes_fuel_run | ].
  cbn [host timers trace now]. fold (totalSeconds bpm notes). subst total.
  fold (totalSeconds bpm notes).
  repeat split.
  - apply callback_once.
  - eexists. reflexivity.
  - rewrite delays_app.
    pose proof (delays_entries this context bpm notes []) as Hd.
    cbn [app List.length] in Hd. rewrite Hd.
    cbn [delays]. now rewrite app_nil_r.
Qed.

Lemma playNotes_completes_witness :
  exists s,
    playNotes sineInstrument smallHost scenario (Fin 120) = Some s
    /\ count isCallback (trace (host s)) = 1%nat
    /\ now (host s)
       = Fin (1000 * (60 / 120 * (1 / 4)
                      + (60 / 120 * (1 / 4) + (60 / 120 * (1 / 4) + 0)))).
Proof.
  destruct (playNotes_completes sineInstrument smallHost scenario 120)
    as (s & Hrun & _ & _ & Hcb & _ & _ & Hnow); [lra | ].
  exists s. repeat split; assumption.
Defined.



Lemma delays_stamped_playFreq (this : RawInstrument) (context : Host)
    (freq time t : num) :
  delays (map (fun c => (t, c)) (_playFreq_calls this context freq time)) = [].
Proof. reflexivity. Qed.

Lemma notes_rendered (this : RawInstrument) (context : Host) (bpm : R)
    (p : call -> bool) (notes : list entry) :
  (forall e, List.length (filter p (entryCalls this context bpm e))
             = (if isNote e then 1 else 0)%nat) ->
  list_sum (map (fun e => List.length (filter p (entryCalls this context bpm e)))
                notes)
  = List.length (filter isNote notes).
Proof.
  intros Hp. induction notes as [| e notes IH]; [reflexivity | ].
  cbn [map list_sum fold_right filter]. rewrite Hp.
  fold (list_sum (map (fun e => List.length
                         (filter p (entryCalls this context bpm e))) notes)).
  rewrite IH. now destruct (isNote e).
Qed.

(** C7.  A rest makes one call only, the [setTimeout] of
    [1000 * (60/bpm * length)] milliseconds: no buffer is created and nothing
    is submitted.  A note of the same length arms the same timer, after its
    own rendering.  Over a whole run the buffers created and the submissions
    are as many as the notes of the list, and the timers as many as its
    entries. *)
Theorem playNote_Rest (this : RawInstrument) (context : Host) (r : Rest) :
  (forall (bpm : num) (w : world),
     let ms := nmul (Fin 1000) (nmul (ndiv (Fin 60) bpm) (Fin (Rest_length r))) in
     playNote this context (ERest r) bpm w
     = mkWorld (now w) (trace w ++ [(now w, SetTimeout ms)])
               (timers w ++ [nadd (now w) ms])
     /\ count isCreateBuffer (trace (playNote this context (ERest r) bpm w))
        = count isCreateBuffer (trace w)
     /\ count isStart (trace (playNote this context (ERest r) bpm w))
        = count isStart (trace w)
     /\ forall n, Note_length n = Rest_length r ->
          let w' := playNote this context (ENote n) bpm w in
          now w' = now w
          /\ timers w' = timers w ++ [nadd (now w) ms]
          /\ delays (trace w') = delays (trace w) ++ [ms]
          /\ count isStart (trace w') = S (count isStart (trace w)))
  /\ (forall (pre post : list entry) (bpm : R),
        0 < bpm ->
        exists s,
          playNotes this context (pre ++ ERest r :: post) (Fin bpm) = Some s
          /\ entryAt this context bpm (pre ++ ERest r :: post) (List.length pre)
             = [(Fin (1000 * totalSeconds bpm pre),
                 SetTimeout (Fin (1000 * (60 / bpm * Rest_length r))))]
          /\ count isStart (trace (host s))
             = List.length (filter isNote (pre ++ post))
          /\ count isCreateBuffer (trace (host s))
             = List.length (filter isNote (pre ++ post))
          /\ List.length (delays (trace (host s)))
             = S (List.length (pre ++ post))).
Proof.
  split.
  - intros bpm w ms. split; [reflexivity | ].
    cbn [playNote]. fold ms. unfold setTimeout. cbn [trace].
    rewrite !count_app. split; [ | split ].
    + unfold count. cbn. lia.
    + unfold count. cbn. lia.
    + intros n Hn. cbn zeta. rewrite Hn. fold ms.
      rewrite _playFreq_world. cbn [now trace timers].
      repeat split.
      * rewrite !delays_app, delays_stamped_playFreq. cbn [delays].
        now rewrite app_nil_r.
      * rewrite !count_app, count_stamped. unfold count. cbn. lia.
  - intros pre post bpm Hbpm.
    eexists. split; [apply playNotes_run; exact Hbpm | ].
    cbn [host trace]. split; [ | split; [ | split ] ].
    + unfold entryAt. rewrite nth_error_middle, startOffset_prefix by exact Hbpm.
      reflexivity.
    + rewrite count_app.
      pose proof (count_entries this context bpm isStart (pre ++ ERest r :: post) [])
        as Hc.
      cbn [app List.length] in Hc. rewrite Hc.
      rewrite (notes_rendered this context bpm isStart)
        by (intros e; apply (entryCalls_count this context bpm e)).
      rewrite !filter_app. cbn [filter isNote]. unfold count. cbn. lia.
    + rewrite count_app.
      pose proof (count_entries this context bpm isCreateBuffer
                    (pre ++ ERest r :: post) []) as Hc.
      cbn [app List.length] in Hc. rewrite Hc.
      rewrite (notes_rendered this context bpm isCreateBuffer)
        by (intros e; apply (entryCalls_count this context bpm e)).
      rewrite !filter_app. cbn [filter isNote]. unfold count. cbn. lia.
    + rewrite delays_app.
      pose proof (delays_entries this context bpm (pre ++ ERest r :: post) [])
        as Hd.
      cbn [app List.length] in Hd. rewrite Hd.
      rewrite length_app, length_map, !length_app. cbn. lia.
Qed.

Lemma playNote_Rest_witness :
  timers (playNote sineInstrument smallHost (ENote (mkNote "A" 4 (1 / 4)))
                   (Fin 120) initial)
  = timers initial
      ++ [nadd (now initial)
               (nmul (Fin 1000)
                     (nmul (ndiv (Fin 60) (Fin 120))
                           (Fin (Rest_length (mkRest (1 / 4))))))].
Proof.
  destruct (playNote_Rest sineInstrument smallHost (mkRest (1 / 4))) as [H _].
  destruct (H (Fin 120) initial) as (_ & _ & _ & Hn).
  destruct (Hn (mkNote "A" 4 (1 / 4)) eq_refl) as (_ & Ht & _).
  exact Ht.
Defined.

(** ** Unrecognized names and non-positive durations *)

Lemma Rtrunc_IZR (z : Z) : Rtrunc (IZR z) = z.
Proof.
  unfold Rtrunc, Rltb. destruct (Rlt_dec (IZR z) 0).
  - rewrite <- opp_IZR.
    rewrite <- (Int_part_spec (IZR (- z)) (- z)%Z) by lra. lia.
  - symmetry. apply Int_part_spec. lra.
Qed.

Lemma nmul_NaN_r (a : num) : nmul a NaN = NaN.
Proof. now destruct a. Qed.

Lemma sineInstrument_NaN (t tmax : num) :
  waveformFunc sineInstrument t NaN tmax = NaN.
Proof.
  cbn [waveformFunc sineInstrument overtone_loop].
  cbn [nmul SINE Math_PI Math_sin]. now rewrite nmul_NaN_r.
Qed.

Lemma smallHost_frames (z : Z) (rate : num) :
  createBuffer smallHost 2 (Fin (IZR z)) rate = mkAudioBuffer 2 (Z.to_nat z).
Proof. cbn [createBuffer smallHost]. now rewrite Rtrunc_IZR. Qed.

Lemma getFreq_NaN (name : string) (o : Z) (l : R) :
  recognized name = false -> getFreq (mkNote name o l) = NaN.
Proof.
  intros Hname. rewrite getFreq_table. unfold recognized in Hname.
  destruct (get noteFreqs name); [discriminate | reflexivity].
Qed.

(** Against C5 as stated: for the name H the lookup returns
    the number [NaN], and the sequencer goes on to render the note with that
    frequency: a buffer is created, filled with [NaN] and submitted, and the
    timer is armed. *)
Lemma getFreq_H_is_rendered :
  getFreq (mkNote "H" 4 (1 / 4)) = NaN
  /\ playNote sineInstrument smallHost (ENote (mkNote "H" 4 (1 / 4)))
              (Fin 120) initial
     = mkWorld (Fin 0)
         [ (Fin 0, CreateBufferSource);
           (Fin 0, CreateBuffer 2 (Fin 1) (Fin 8));
           (Fin 0, Start [[NaN]; [NaN]]);
           (Fin 0, SetTimeout (Fin 125)) ]
         [Fin 125].
Proof.
  assert (getFreq (mkNote "H" 4 (1 / 4)) = NaN) as HNaN
    by (now apply getFreq_NaN).
  split; [exact HNaN | ].
  rewrite playNote_world by lra.
  cbn [entryCalls initial now trace timers app nadd]. rewrite HNaN.
  unfold _playFreq_calls. cbn [sampleRate smallHost nmul].
  assert (entrySeconds 120 (ENote (mkNote "H" 4 (1 / 4))) = / 8) as ->
    by (unfold entrySeconds; cbn [durationFraction Note_length]; lra).
  replace (8 * / 8) with (IZR 1) by lra.
  replace (1000 * / 8) with 125 by lra.
  replace (0 + 125) with 125 by lra.
  fold smallHost. rewrite smallHost_frames.
  cbn [numberOfChannels channelLength Z.to_nat].
  change (Pos.to_nat 1) with 1%nat.
  unfold channelData. cbn [seq map app].
  now rewrite !sineInstrument_NaN.
Qed.

(** The trace of a run over [pre ++ e :: post]: the calls of the entries
    before [e], the calls of [e] at its scheduled start, the calls of the
    entries after it. *)
Lemma trace_around (this : RawInstrument) (context : Host) (bpm : R)
    (pre post : list entry) (e : entry) :
  0 < bpm ->
  flat_map (entryAt this context bpm (pre ++ e :: post))
           (seq 0 (List.length (pre ++ e :: post)))
  = flat_map (entryAt this context bpm (pre ++ e :: post))
             (seq 0 (List.length pre))
    ++ map (fun c => (Fin (1000 * totalSeconds bpm pre), c))
           (entryCalls this context bpm e)
    ++ flat_map (entryAt this context bpm (pre ++ e :: post))
                (seq (S (List.length pre)) (List.length post)).
Proof.
  intros Hbpm. rewrite length_app. cbn [List.length].
  rewrite seq_app, flat_map_app. cbn [Nat.add seq flat_map].
  f_equal. f_equal.
  unfold entryAt. now rewrite nth_error_middle, startOffset_prefix.
Qed.

(** C5, amended.  For a name the pitch table does not list, [getFreq] raises
    nothing and returns [NaN].  A note with such a name is rendered like any
    other, with the frequency [NaN]: in the run of [playNotes] over a list
    that holds it, the calls of the entries before it are followed, at the
    scheduled start of the note, by the calls of [_playFreq] with the
    frequency [NaN] (the buffer is created, filled and submitted) and by the
    arming of the note's timer, then by the calls of the entries after it
    and by the completion callback, invoked once, at the sum of the
    scheduled durations. *)
Theorem getFreq_unrecognized (name : string) (o : Z) (l : R) :
  recognized name = false ->
  getFreq (mkNote name o l) = NaN
  /\ Binary64.getFreq (mkNote name o l) = NaN
  /\ forall (this : RawInstrument) (context : Host) (pre post : list entry)
            (bpm : R),
       0 < bpm ->
       let notes := pre ++ ENote (mkNote name o l) :: post in
       exists s,
         playNotes this context notes (Fin bpm) = Some s
         /\ timers (host s) = []
         /\ count isCallback (trace (host s)) = 1%nat
         /\ now (host s) = Fin (1000 * totalSeconds bpm notes)
         /\ trace (host s)
            = flat_map (entryAt this context bpm notes)
                       (seq 0 (List.length pre))
              ++ map (fun c => (Fin (1000 * totalSeconds bpm pre), c))
                     (_playFreq_calls this context NaN (Fin (60 / bpm * l))
                        ++ [SetTimeout (Fin (1000 * (60 / bpm * l)))])
              ++ flat_map (entryAt this context bpm notes)
                          (seq (S (List.length pre)) (List.length post))
              ++ [(Fin (1000 * totalSeconds bpm notes), Callback)].
Proof.
  intros Hname.
  assert (getFreq (mkNote name o l) = NaN) as HNaN
    by (now apply getFreq_NaN).
  split; [exact HNaN | ].
  split.
  { unfold Binary64.getFreq, Binary64.nmul. cbn [Note_name].
    unfold recognized in Hname.
    destruct (get noteFreqs name); [discriminate | ].
    cbn [ToNumber]. now rewrite nmul_NaN_r. }
  intros this context pre post bpm Hbpm notes.
  eexists. split; [apply playNotes_run; exact Hbpm | ].
  cbn [host timers trace now]. repeat split.
  - apply callback_once.
  - unfold notes. rewrite (trace_around this context bpm pre post _ Hbpm).
    cbn [entryCalls]. rewrite HNaN.
    unfold entrySeconds. cbn [durationFraction Note_length].
    now rewrite <- !app_assoc.
Qed.

Lemma getFreq_unrecognized_witness :
  recognized "H" = false /\ getFreq (mkNote "H" 4 (1 / 4)) = NaN.
Proof.
  split; [reflexivity | ].
  apply (getFreq_unrecognized "H" 4 (1 / 4)). reflexivity.
Defined.

(** With a host whose calls return, [_playFreq] is the renderer of the
    sequencer above. *)
Lemma _playFreq_returning (E : Type) (this : RawInstrument) (context : Host)
    (freq time : num) (w : world) :
  Raising._playFreq this (returning (E := E) context) freq time w
  = (_playFreq this context freq time w, None).
Proof. reflexivity. Qed.




(** ** Amplitude of the rendered samples *)



Lemma Rsum_nonneg (ws : list R) : Forall (fun w => 0 <= w) ws -> 0 <= Rsum ws.
Proof.
  unfold Rsum. induction 1 as [| w ws Hw _ IH]; cbn [fold_right]; lra.
Qed.

Lemma normalized_bound (acc s e : R) :
  0 < s -> 0 <= e -> 0 - e * s <= acc <= 0 + e * s ->
  exists q, ndiv (Fin acc) (Fin s) = Fin q /\ - e <= q <= e.
Proof.
  intros Hs He Hacc. exists (acc / s).
  split; [apply ndiv_Fin; lra | ].
  split.
  - apply Rmult_le_reg_r with s; [exact Hs | ].
    unfold Rdiv. rewrite Rmult_assoc, Rinv_l by lra. lra.
  - apply Rmult_le_reg_r with s; [exact Hs | ].
    unfold Rdiv. rewrite Rmult_assoc, Rinv_l by lra. lra.
Qed.

(** ** The log-normal envelope *)

Lemma Math_pow_square (z : R) : Math_pow (Fin z) (Fin 2) = Fin (z * z).
Proof.
  unfold Math_pow. rewrite Reqb_false by lra.
  destruct (Rlt_dec 0 z) as [Hz | Hz].
  - rewrite Rltb_true by exact Hz. apply Fin_eq.
    change 2 with (INR 2). rewrite Rpower_pow by exact Hz. cbn [pow]. lra.
  - rewrite Rltb_false by lra.
    destruct (Req_dec_T z 0) as [-> | Hz0].
    + rewrite Reqb_true by reflexivity. rewrite Rltb_true by lra.
      apply Fin_eq. lra.
    + rewrite Reqb_false by exact Hz0.
      unfold isInt. rewrite (Rtrunc_IZR 2). rewrite Reqb_true by reflexivity.
      apply Fin_eq. unfold powerRZ. change (Pos.to_nat 2) with 2%nat.
      cbn [pow]. lra.
Qed.

Lemma Math_pow_E (y : R) : Math_pow Math_E (Fin y) = Fin (exp y).
Proof.
  unfold Math_pow, Math_E.
  destruct (Req_dec_T y 0) as [-> | Hy].
  - rewrite Reqb_true by reflexivity. now rewrite exp_0.
  - rewrite Reqb_false by exact Hy.
    rewrite Rltb_true by apply exp_pos.
    apply Fin_eq. unfold Rpower. now rewrite ln_exp, Rmult_1_r.
Qed.

Lemma sqrt_2PI_gt_1 : 1 < sqrt (2 * PI).
Proof.
  rewrite <- sqrt_1 at 1. pose proof PI2_1.
  apply sqrt_lt_1; lra.
Qed.

Lemma peak_Fin :
  ndiv (Fin 1) (Math_sqrt (nmul (Fin 2) Math_PI)) = Fin (1 / sqrt (2 * PI)).
Proof.
  pose proof PI_RGT_0. pose proof sqrt_2PI_gt_1.
  cbn [nmul Math_PI Math_sqrt]. rewrite Rltb_false by lra.
  apply ndiv_Fin. lra.
Qed.

Lemma peak_range : 0 < 1 / sqrt (2 * PI) < 1.
Proof.
  pose proof sqrt_2PI_gt_1 as H. split.
  - apply Rdiv_lt_0_compat; lra.
  - apply Rmult_lt_reg_r with (sqrt (2 * PI)); [lra | ].
    unfold Rdiv. rewrite Rmult_assoc, Rinv_l by lra. lra.
Qed.

Lemma lognormal_pos (x : R) :
  0 < x ->
  lognormal (Fin x)
  = Fin (1 / sqrt (2 * PI) * exp (-1 / 2 * (ln x * ln x))).
Proof.
  intros Hx. unfold lognormal. rewrite peak_Fin.
  cbn [Math_log]. rewrite Rltb_false, Reqb_false by lra.
  rewrite Math_pow_square, ndiv_Fin by lra. cbn [nmul].
  now rewrite Math_pow_E.
Qed.

Lemma lognormal_zero : lognormal (Fin 0) = Fin 0.
Proof.
  unfold lognormal. rewrite peak_Fin.
  cbn [Math_log]. rewrite Rltb_false, Reqb_true by lra.
  cbn [Math_pow]. rewrite Reqb_false, Rltb_true by lra.
  unfold isInt. rewrite (Rtrunc_IZR 2), Reqb_true by reflexivity.
  cbn [Z.odd andb]. rewrite ndiv_Fin by lra.
  cbn [nmul]. unfold inf_times. rewrite Rltb_false, Rltb_true by lra.
  cbn [nneg Math_pow Math_E].
  assert (1 < exp 1) by (pose proof (exp_ineq1 1); lra).
  rewrite Rabs_pos_eq by lra. rewrite Rltb_true by lra.
  cbn [nmul]. apply Fin_eq. lra.
Qed.

Lemma exp_le_1 (y : R) : y <= 0 -> exp y <= 1.
Proof.
  intros [Hy | ->]; [ | rewrite exp_0; lra ].
  pose proof (exp_increasing y 0 Hy) as H. rewrite exp_0 in H. lra.
Qed.

Lemma exp_eq_1 (y : R) : exp y = 1 -> y = 0.
Proof. intros H. apply exp_inv. now rewrite exp_0. Qed.

Lemma ln_eq_0 (x : R) : 0 < x -> ln x = 0 -> x = 1.
Proof.
  intros Hx H. rewrite <- (exp_ln x Hx), H. apply exp_0.
Qed.

(** The value of the envelope at a positive argument: positive, at most the
    peak [1/sqrt(2 pi)], and equal to it at 1 only. *)
Lemma lognormal_value (x : R) :
  0 < x ->
  let y := 1 / sqrt (2 * PI) * exp (-1 / 2 * (ln x * ln x)) in
  0 < y <= 1 / sqrt (2 * PI) /\ (y = 1 / sqrt (2 * PI) <-> x = 1).
Proof.
  intros Hx y. subst y.
  pose proof peak_range as [Hp _].
  set (p := 1 / sqrt (2 * PI)) in *.
  set (u := -1 / 2 * (ln x * ln x)).
  assert (u <= 0) as Hu by (subst u; nra).
  pose proof (exp_pos u) as He0. pose proof (exp_le_1 u Hu) as He1.
  split; [split; nra | ].
  split.
  - intros H. apply ln_eq_0; [exact Hx | ].
    assert (exp u = 1) as E by nra.
    apply exp_eq_1 in E. subst u. nra.
  - intros ->. subst u. rewrite ln_1.
    replace (-1 / 2 * (0 * 0)) with 0 by lra. rewrite exp_0. lra.
Qed.

Lemma lognormal_nonneg_arg (x : R) :
  0 <= x ->
  exists y, lognormal (Fin x) = Fin y
            /\ 0 <= y <= 1 / sqrt (2 * PI)
            /\ (y = 1 / sqrt (2 * PI) <-> x = 1)
            /\ (x = 0 -> y = 0).
Proof.
  intros [Hx | <-].
  - eexists. split; [now apply lognormal_pos | ].
    destruct (lognormal_value x Hx) as [[H1 H2] H3].
    repeat split; try lra; try apply H3. 
  - exists 0. split; [apply lognormal_zero | ].
    pose proof peak_range. repeat split; try lra.
Qed.

(** ** The wave shapes *)

Lemma Rtrunc_nonneg (x : R) :
  0 <= x -> IZR (Rtrunc x) <= x < IZR (Rtrunc x) + 1.
Proof.
  intros Hx. unfold Rtrunc. rewrite Rltb_false by exact Hx.
  pose proof (base_Int_part x). lra.
Qed.

Lemma Rtrunc_unit (x : R) : 0 <= x < 1 -> Rtrunc x = 0%Z.
Proof.
  intros Hx. unfold Rtrunc. rewrite Rltb_false by lra.
  symmetry. apply Int_part_spec. lra.
Qed.

Lemma nrem_1 (x : R) :
  nrem (Fin x) (Fin 1) = Fin (x - 1 * IZR (Rtrunc (x / 1))).
Proof. cbn [nrem]. now rewrite Reqb_false by lra. Qed.

Lemma SQUARE_first_half (x : R) : 0 <= x < 0.5 -> SQUARE (Fin x) = Fin 1.
Proof.
  intros Hx. unfold SQUARE. rewrite nrem_1, Rtrunc_unit by lra.
  cbn [nlt]. now rewrite Rltb_true by lra.
Qed.

Lemma SQUARE_second_half (x : R) : 0.5 <= x < 1 -> SQUARE (Fin x) = Fin (-1).
Proof.
  intros Hx. unfold SQUARE. rewrite nrem_1, Rtrunc_unit by lra.
  cbn [nlt]. now rewrite Rltb_false by lra.
Qed.



(** ** The operations within the range of binary64 *)

Lemma Binary64_nmul_bounded (x y : R) :
  - overflowBound < x * y < overflowBound ->
  exists z, Binary64.nmul (Fin x) (Fin y) = Fin z
            /\ (z = x * y
                \/ z = 0 /\ - underflowBound <= x * y <= underflowBound).
Proof. intros H. unfold Binary64.nmul. cbn [nmul Binary64.rnd]. now apply fl_bounded. Qed.

Lemma Binary64_nadd_bounded (x y : R) :
  - overflowBound < x + y < overflowBound ->
  exists z, Binary64.nadd (Fin x) (Fin y) = Fin z
            /\ (z = x + y
                \/ z = 0 /\ - underflowBound <= x + y <= underflowBound).
Proof. intros H. unfold Binary64.nadd. cbn [nadd Binary64.rnd]. now apply fl_bounded. Qed.

Lemma Binary64_nsub_bounded (x y : R) :
  - overflowBound < x - y < overflowBound ->
  exists z, Binary64.nsub (Fin x) (Fin y) = Fin z
            /\ (z = x - y
                \/ z = 0 /\ - underflowBound <= x - y <= underflowBound).
Proof.
  intros H. unfold Binary64.nsub. cbn [nsub nneg nadd Binary64.rnd].
  replace (x + - y) with (x - y) by lra. now apply fl_bounded.
Qed.

Lemma Binary64_ndiv_bounded (x y : R) :
  y <> 0 ->
  - overflowBound < x / y < overflowBound ->
  exists z, Binary64.ndiv (Fin x) (Fin y) = Fin z
            /\ (z = x / y
                \/ z = 0 /\ - underflowBound <= x / y <= underflowBound).
Proof.
  intros Hy H. unfold Binary64.ndiv. rewrite ndiv_Fin by exact Hy.
  cbn [Binary64.rnd]. now apply fl_bounded.
Qed.

(** A quotient [x / y] with [0 <= x <= y]. *)
Lemma ratio_le_1 (x y : R) : 0 < y -> 0 <= x <= y -> 0 <= x / y <= 1.
Proof.
  intros Hy Hx. split.
  - apply Rmult_le_reg_r with y; [exact Hy | ].
    unfold Rdiv. rewrite Rmult_assoc, Rinv_l by lra. lra.
  - apply Rmult_le_reg_r with y; [exact Hy | ].
    unfold Rdiv. rewrite Rmult_assoc, Rinv_l by lra. lra.
Qed.

(** The envelope over a note, within the range: a number in [0, 1], and 0
    at both ends. *)
Lemma Binary64_attackAndDecay_unit (x : R) :
  0 <= x <= 1 ->
  exists e, Binary64.attackAndDecay (Fin x) (Fin 0.1) (Fin 0.5) = Fin e
            /\ 0 <= e <= 1 /\ (x = 0 -> e = 0) /\ (x = 1 -> e = 0).
Proof.
  intros Hx. pose proof underflowBound_range as Hu.
  pose proof overflowBound_large as Ho.
  unfold Binary64.attackAndDecay. cbn [nlt].
  destruct (Rlt_dec x 0.1) as [H1 | H1].
  - rewrite Rltb_true by exact H1.
    destruct (Binary64_ndiv_bounded 1 0.1) as (c & -> & [-> | [_ Hc]]);
      [lra | lra | | lra].
    destruct (Binary64_nmul_bounded (1 / 0.1) x) as (e & -> & [-> | [-> _]]);
      [lra | | ].
    + eexists. split; [reflexivity | ]. lra.
    + eexists. split; [reflexivity | ]. lra.
  - rewrite Rltb_false by lra.
    destruct (Rlt_dec x 0.5) as [H2 | H2].
    + rewrite Rltb_true by exact H2. exists 1. split; [reflexivity | lra].
    + rewrite Rltb_false by lra.
      destruct (Binary64_nsub_bounded 1 0.5) as (c & -> & [-> | [_ Hc]]);
        [lra | | lra].
      replace (1 - 0.5) with (1 / 2) by lra.
      destruct (Binary64_ndiv_bounded (-1) (1 / 2)) as (m & -> & [-> | [_ Hc]]);
        [lra | lra | | lra].
      replace (-1 / (1 / 2)) with (-2) by lra.
      destruct (Binary64_nsub_bounded x 0.5) as (d & -> & Hd); [lra | ].
      destruct (Binary64_nmul_bounded (-2) d) as (p & -> & Hp);
        [destruct Hd as [-> | [-> _]]; lra | ].
      destruct (Binary64_nadd_bounded p 1) as (e & -> & He);
        [destruct Hd as [-> | [-> _]]; destruct Hp as [-> | [-> _]]; lra | ].
      exists e. split; [reflexivity | ].
      destruct Hd as [-> | [-> Hd]]; destruct Hp as [-> | [-> Hp]];
        destruct He as [-> | [-> He]]; lra.
Qed.

(** The wave shapes within the range: the square wave at every number, the
    triangle wave at every number [>= 0], the sine wave at every [x >= 0]
    for which [2 pi x] is a finite number. *)
Lemma Binary64_SQUARE_range (x : R) :
  exists y, Binary64.SQUARE (Fin x) = Fin y /\ -1 <= y <= 1.
Proof.
  unfold Binary64.SQUARE. rewrite nrem_1.
  destruct (nlt _ _); eexists; (split; [reflexivity | lra]).
Qed.

Lemma Binary64_TRIANGLE_range (x : R) :
  0 <= x -> exists y, Binary64.TRIANGLE (Fin x) = Fin y /\ -1 <= y <= 1.
Proof.
  intros Hx. pose proof underflowBound_range as Hu.
  pose proof overflowBound_large as Ho.
  unfold Binary64.TRIANGLE. rewrite nrem_1.
  assert (0 <= x / 1) as H by lra.
  pose proof (Rtrunc_nonneg (x / 1) H) as Hr.
  set (r := x - 1 * IZR (Rtrunc (x / 1))) in *.
  assert (0 <= r < 1) as Hr' by (subst r; lra).
  destruct (Binary64_nmul_bounded 2 r) as (d & -> & Hd); [lra | ].
  destruct (Binary64_nsub_bounded d 1) as (y & -> & Hy);
    [destruct Hd as [-> | [-> _]]; lra | ].
  exists y. split; [reflexivity | ].
  destruct Hd as [-> | [-> _]]; destruct Hy as [-> | [-> _]]; lra.
Qed.

Lemma PI_range : 2 < PI <= 4.
Proof. pose proof PI2_1. pose proof PI_4. lra. Qed.

Lemma Binary64_two_PI : Binary64.nmul (Fin 2) Math_PI = Fin (2 * PI).
Proof.
  pose proof PI_range. pose proof underflowBound_range.
  pose proof overflowBound_large.
  unfold Math_PI.
  destruct (Binary64_nmul_bounded 2 PI) as (z & -> & [-> | [_ Hz]]);
    [lra | reflexivity | lra].
Qed.

Lemma Binary64_sin_range (z : R) :
  exists y, Binary64.Math_sin (Fin z) = Fin y /\ -1 <= y <= 1
            /\ (z = 0 -> y = 0).
Proof.
  pose proof overflowBound_large as Ho. pose proof (SIN_bound z) as Hs.
  unfold Binary64.Math_sin. cbn [Math_sin Binary64.rnd].
  destruct (fl_bounded (sin z)) as (y & -> & Hy); [lra | ].
  exists y. split; [reflexivity | ].
  split; [destruct Hy as [-> | [-> _]]; lra | ].
  intros ->. rewrite sin_0 in Hy. destruct Hy as [-> | [-> _]]; reflexivity.
Qed.

Lemma Binary64_SINE_range (x : R) :
  0 <= x -> finite64 (2 * PI * x) ->
  exists y, Binary64.SINE (Fin x) = Fin y /\ -1 <= y <= 1.
Proof.
  intros Hx Hfin. pose proof PI_range as HPI.
  pose proof maxFinite_range as (_ & Hm & _).
  unfold finite64 in Hfin. rewrite Rabs_pos_eq in Hfin by nra.
  unfold Binary64.SINE. rewrite Binary64_two_PI.
  destruct (Binary64_nmul_bounded (2 * PI) x) as (z & -> & _); [nra | ].
  destruct (Binary64_sin_range z) as (y & -> & Hy & _).
  now exists y.
Qed.

(** The log-normal envelope within the range. *)
Lemma Binary64_peak :
  Binary64.ndiv (Fin 1) (Binary64.Math_sqrt (Binary64.nmul (Fin 2) Math_PI))
  = Fin (1 / sqrt (2 * PI)).
Proof.
  pose proof PI_range as HPI. pose proof underflowBound_range as Hu.
  pose proof overflowBound_large as Ho. pose proof sqrt_2PI_gt_1 as Hs.
  pose proof peak_range as Hp.
  assert (sqrt (2 * PI) < 2 * PI) as Hs' by (apply sqrt_less; lra).
  rewrite Binary64_two_PI.
  unfold Binary64.Math_sqrt. cbn [Math_sqrt]. rewrite Rltb_false by lra.
  cbn [Binary64.rnd]. rewrite fl_Fin;
    [ | right; rewrite Rabs_pos_eq by lra; lra | rewrite Rabs_pos_eq by lra; lra ].
  destruct (Binary64_ndiv_bounded 1 (sqrt (2 * PI))) as (z & -> & [-> | [_ Hz]]);
    [lra | lra | reflexivity | ].
  assert (1 / sqrt (2 * PI) * sqrt (2 * PI) = 1) as E
    by (unfold Rdiv; rewrite Rmult_1_l; apply Rinv_l; lra).
  nra.
Qed.

Lemma Binary64_log_square (a : num) :
  a = PInf \/ (exists x, a = Fin x /\ 0 <= x) ->
  (Binary64.Math_pow (Binary64.Math_log a) (Fin 2) = PInf
   \/ exists q, Binary64.Math_pow (Binary64.Math_log a) (Fin 2) = Fin q
                /\ 0 <= q < overflowBound)
  /\ (a = Fin 0 -> Binary64.Math_pow (Binary64.Math_log a) (Fin 2) = PInf).
Proof.
  pose proof overflowBound_large as Ho.
  assert (Binary64.Math_pow PInf (Fin 2) = PInf) as HP.
  { unfold Binary64.Math_pow. cbn [Math_pow].
    now rewrite Reqb_false, Rltb_true by lra. }
  assert (Binary64.Math_pow NInf (Fin 2) = PInf) as HN.
  { unfold Binary64.Math_pow. cbn [Math_pow].
    rewrite Reqb_false, Rltb_true by lra.
    unfold isInt. rewrite (Rtrunc_IZR 2). rewrite Reqb_true by reflexivity.
    reflexivity. }
  intros [-> | (x & -> & Hx)].
  - split; [left; exact HP | discriminate].
  - destruct (Req_dec_T x 0) as [-> | Hne].
    + assert (Binary64.Math_log (Fin 0) = NInf) as ->.
      { unfold Binary64.Math_log. cbn [Math_log].
        now rewrite Rltb_false, Reqb_true by lra. }
      split; [left; exact HN | intros _; exact HN].
    + assert (Binary64.Math_log (Fin x) = fl (ln x)) as ->.
      { unfold Binary64.Math_log. cbn [Math_log].
        now rewrite Rltb_false, Reqb_false by lra. }
      split; [ | intros [= E]; contradiction ].
      destruct (fl_spec (ln x)) as [(_ & ->) | [(_ & ->) | (v & -> & _ & _)]].
      * left; exact HP.
      * left; exact HN.
      * assert (Binary64.Math_pow (Fin v) (Fin 2) = fl (v * v)) as ->.
        { unfold Binary64.Math_pow. now rewrite Math_pow_square. }
        destruct (fl_spec (v * v)) as [(_ & ->) | [(H & _) | (q & -> & Hb & Hq)]].
        -- now left.
        -- nra.
        -- right. exists q. split; [reflexivity | ].
           destruct Hq as [-> | [-> _]]; nra.
Qed.

Lemma Binary64_lognormal_range (a : num) :
  a = PInf \/ (exists x, a = Fin x /\ 0 <= x) ->
  exists e, Binary64.lognormal a = Fin e
            /\ 0 <= e <= 1 / sqrt (2 * PI)
            /\ (a = Fin 0 -> e = 0).
Proof.
  intros Ha. pose proof underflowBound_range as Hu.
  pose proof overflowBound_large as Ho. pose proof peak_range as Hp.
  unfold Binary64.lognormal. rewrite Binary64_peak.
  destruct (Binary64_ndiv_bounded (-1) 2) as (c & -> & [-> | [_ Hc]]);
    [lra | lra | | lra].
  assert (Binary64.Math_pow Math_E NInf = Fin 0) as HE.
  { unfold Binary64.Math_pow, Math_E. cbn [Math_pow].
    assert (1 < exp 1) by (pose proof (exp_ineq1 1); lra).
    rewrite Rabs_pos_eq by lra. rewrite Rltb_true by lra.
    cbn [Binary64.rnd]. apply fl_0. }
  assert (Binary64.nmul (Fin (1 / sqrt (2 * PI))) (Fin 0) = Fin 0) as H0.
  { unfold Binary64.nmul. cbn [nmul Binary64.rnd]. rewrite Rmult_0_r.
    apply fl_0. }
  assert (Binary64.nmul (Fin (-1 / 2)) PInf = NInf) as HI.
  { unfold Binary64.nmul. cbn [nmul]. unfold inf_times.
    now rewrite Rltb_false, Rltb_true by lra. }
  destruct (Binary64_log_square a Ha) as [[-> | (q & -> & Hq)] Hzero].
  - rewrite HI, HE, H0. exists 0. split; [reflexivity | ]. split; [lra | reflexivity].
  - assert (a <> Fin 0) as Hne.
    { intros E. specialize (Hzero E).
      destruct Ha as [-> | (x & -> & _)]; discriminate. }
    destruct (Binary64_nmul_bounded (-1 / 2) q) as (u & -> & Hu'); [lra | ].
    assert (u <= 0) as Hneg by (destruct Hu' as [-> | [-> _]]; lra).
    unfold Binary64.Math_pow. rewrite Math_pow_E. cbn [Binary64.rnd].
    pose proof (exp_pos u) as He0. pose proof (exp_le_1 u Hneg) as He1.
    destruct (fl_bounded (exp u)) as (v & -> & Hv); [lra | ].
    assert (0 <= v <= 1) as Hv' by (destruct Hv as [-> | [-> _]]; lra).
    destruct (Binary64_nmul_bounded (1 / sqrt (2 * PI)) v) as (e & -> & He);
      [nra | ].
    exists e. split; [reflexivity | ].
    split; [destruct He as [-> | [-> _]]; nra | ].
    intros E. contradiction.
Qed.

(** Numbers of ordinary size are within the range. *)
Lemma finite64_small (x : R) : 0 <= x <= 1048576 -> finite64 x.
Proof.
  intros H. pose proof maxFinite_large. unfold finite64.
  rewrite Rabs_pos_eq by lra. lra.
Qed.

Lemma number64_small (x : R) :
  x = 0 \/ 1 / 1048576 <= x <= 1048576 -> number64 x.
Proof.
  intros [-> | H]; [now left | right].
  pose proof maxFinite_large.
  pose proof (powerRZ_2_mono (-1074) (-20) ltac:(lia)) as Hp.
  assert (powerRZ 2 (-20) = 1 / 1048576) as E by (simpl; lra).
  rewrite Rabs_pos_eq by lra. lra.
Qed.

Lemma number64_nonneg (x : R) :
  0 <= x -> number64 x ->
  x = 0 \/ underflowBound < x /\ x <= maxFinite.
Proof.
  intros Hx [-> | H]; [now left | right].
  rewrite Rabs_pos_eq in H by exact Hx.
  assert (underflowBound < powerRZ 2 (-1074)) as Hu.
  { unfold underflowBound. replace (-1074)%Z with (-1075 + 1)%Z by lia.
    rewrite powerRZ_2_S. pose proof (powerRZ_2_pos (-1075)). lra. }
  lra.
Qed.

Lemma weights_nonneg (ws : list R) :
  Forall (fun w => 0 <= w /\ number64 w) ws -> Forall (fun w => 0 <= w) ws.
Proof. apply Forall_impl. now intros w [H _]. Qed.

(** The sum of non-negative weights is computed without loss as long as it
    does not overflow. *)
Lemma Binary64_fold_nadd (rest : list R) :
  Forall (fun w => 0 <= w /\ number64 w) rest ->
  forall a, 0 <= a -> number64 a -> a + Rsum rest <= maxFinite ->
  fold_left Binary64.nadd (map Fin rest) (Fin a) = Fin (a + Rsum rest).
Proof.
  pose proof maxFinite_range as (_ & Hm & _).
  pose proof underflowBound_range as Hu.
  induction 1 as [| x rest [Hx Hnx] Hrest IH]; intros a Ha Hna Hsum.
  - cbn [map fold_left]. apply Fin_eq. unfold Rsum. cbn [fold_right]. lra.
  - pose proof (Rsum_nonneg rest (weights_nonneg rest Hrest)) as Hr.
    assert (Rsum (x :: rest) = x + Rsum rest) as E by reflexivity.
    rewrite E in *.
    cbn [map fold_left].
    assert (Binary64.nadd (Fin a) (Fin x) = Fin (a + x)) as ->.
    { unfold Binary64.nadd. cbn [nadd Binary64.rnd].
      destruct (number64_nonneg a Ha Hna) as [-> | [Ha1 Ha2]];
        destruct (number64_nonneg x Hx Hnx) as [-> | [Hx1 Hx2]];
        apply fl_Fin; rewrite ?Rabs_pos_eq by lra;
        first [ left; lra | right; lra | lra ]. }
    rewrite IH; [apply Fin_eq; lra | lra | | lra].
    destruct (number64_nonneg a Ha Hna) as [-> | [Ha1 Ha2]];
      destruct (number64_nonneg x Hx Hnx) as [-> | [Hx1 Hx2]].
    + left. lra.
    + replace (0 + x) with x by lra. exact Hnx.
    + replace (a + 0) with a by lra. exact Hna.
    + right. rewrite Rabs_pos_eq by lra. split; [ | lra].
      destruct Hna as [-> | Hna]; [lra | ].
      rewrite Rabs_pos_eq in Hna by lra. lra.
Qed.

Lemma Binary64_reduce_add_Fin (ws : list R) :
  Forall (fun w => 0 <= w /\ number64 w) ws ->
  0 < Rsum ws <= maxFinite ->
  Binary64.reduce_add (map Fin ws) = Normal (Fin (Rsum ws)).
Proof.
  intros Hws Hsum. destruct Hws as [| w rest [Hw Hnw] Hrest].
  - unfold Rsum in Hsum. cbn in Hsum. lra.
  - cbn [map Binary64.reduce_add]. f_equal.
    apply Binary64_fold_nadd; try assumption.
    exact (proj2 Hsum).
Qed.

Lemma Binary64_normalized_bound (acc s e : R) :
  0 < s -> 0 <= e <= 1 -> - (e * s) <= acc <= e * s ->
  exists q, Binary64.ndiv (Fin acc) (Fin s) = Fin q /\ - e <= q <= e
            /\ (acc = 0 -> q = 0).
Proof.
  intros Hs He Hacc. pose proof overflowBound_large.
  destruct (normalized_bound acc s e Hs (proj1 He)) as (q & Hq & Hqb); [lra | ].
  rewrite ndiv_Fin in Hq by lra. injection Hq as Hq.
  destruct (Binary64_ndiv_bounded acc s) as (z & -> & Hz); [lra | lra | ].
  exists z. split; [reflexivity | ].
  split; [destruct Hz as [-> | [-> _]]; lra | ].
  intros ->. destruct Hz as [-> | [-> _]]; [ | reflexivity].
  unfold Rdiv. ring.
Qed.

Section Overtones64.

Variable waveFunc : num -> num.
Variables freq t : R.
Variable n : nat.
Hypothesis freq_nonneg : 0 <= freq.
Hypothesis t_nonneg : 0 <= t.
Hypothesis freq_finite : 2 * PI * (freq * INR n) <= maxFinite.
Hypothesis arg_finite : 2 * PI * (freq * INR n) * t <= maxFinite.

(** The frequency of overtone [k] and the argument of its wave neither
    overflow. *)
Lemma Binary64_overtoneFreq (k : nat) :
  (k + 1 <= n)%nat ->
  exists y, Binary64.nmul (Fin freq) (Fin (INR (k + 1))) = Fin y
            /\ 0 <= y <= freq * INR n.
Proof.
  intros Hk. pose proof PI_range as HPI.
  pose proof maxFinite_range as (_ & Hm & _).
  assert (0 < INR (k + 1) <= INR n) as Hi
    by (split; [apply lt_0_INR; lia | apply le_INR; lia]).
  assert (0 <= freq * INR (k + 1) <= freq * INR n) as Hy by nra.
  destruct (Binary64_nmul_bounded freq (INR (k + 1))) as (y & -> & Hc); [nra | ].
  exists y. split; [reflexivity | ].
  destruct Hc as [-> | [-> _]]; lra.
Qed.

Lemma Binary64_overtone_arg (k : nat) :
  (k + 1 <= n)%nat ->
  exists x, Binary64.nmul (Binary64.nmul (Fin freq) (Fin (INR (k + 1)))) (Fin t)
            = Fin x
            /\ 0 <= x /\ finite64 (2 * PI * x).
Proof.
  intros Hk. pose proof PI_range as HPI.
  pose proof maxFinite_range as (_ & Hm & _).
  destruct (Binary64_overtoneFreq k Hk) as (y & -> & Hy).
  assert (0 <= y * t <= freq * INR n * t) as Hyt by nra.
  destruct (Binary64_nmul_bounded y t) as (x & -> & Hc); [nra | ].
  exists x. split; [reflexivity | ].
  assert (0 <= x <= freq * INR n * t) as Hx
    by (destruct Hc as [-> | [-> _]]; lra).
  split; [lra | ]. unfold finite64. rewrite Rabs_pos_eq by nra. nra.
Qed.

Lemma Binary64_sine_arg (k : nat) :
  (k + 1 <= n)%nat ->
  exists y,
    Binary64.Math_sin
      (Binary64.nmul
         (Binary64.nmul (Binary64.nmul (Fin 2) Math_PI)
            (Binary64.nmul (Fin freq) (Fin (INR (k + 1)))))
         (Fin t)) = Fin y
    /\ -1 <= y <= 1.
Proof.
  intros Hk. pose proof PI_range as HPI.
  pose proof maxFinite_range as (_ & Hm & _).
  destruct (Binary64_overtoneFreq k Hk) as (y1 & -> & Hy1).
  rewrite Binary64_two_PI.
  assert (0 <= 2 * PI * y1 <= 2 * PI * (freq * INR n)) as Hz1 by nra.
  destruct (Binary64_nmul_bounded (2 * PI) y1) as (z1 & -> & Hc1); [lra | ].
  assert (0 <= z1 <= 2 * PI * (freq * INR n)) as Hz1'
    by (destruct Hc1 as [-> | [-> _]]; lra).
  assert (0 <= z1 * t <= 2 * PI * (freq * INR n) * t) as Hz2 by nra.
  destruct (Binary64_nmul_bounded z1 t) as (z2 & -> & _); [lra | ].
  destruct (Binary64_sin_range z2) as (y & -> & Hy & _).
  now exists y.
Qed.

(** One term [weight * envelope * wave] of a loop, added to the running
    sample. *)
Lemma Binary64_term (w e y acc b : R) :
  0 <= w -> 0 <= e <= 1 -> -1 <= y <= 1 ->
  - b <= acc <= b -> b + e * w <= maxFinite ->
  exists acc',
    Binary64.nadd (Fin acc) (Binary64.nmul (Binary64.nmul (Fin w) (Fin e)) (Fin y))
    = Fin acc'
    /\ - (b + e * w) <= acc' <= b + e * w.
Proof.
  intros Hw He Hy Hacc Hb. pose proof maxFinite_range as (_ & Hm & _).
  assert (0 <= w * e) as Hwe by nra.
  destruct (Binary64_nmul_bounded w e) as (a & -> & Ha); [lra | ].
  assert (0 <= a <= e * w) as Ha' by (destruct Ha as [-> | [-> _]]; lra).
  assert (- a <= a * y <= a) as Hay by nra.
  destruct (Binary64_nmul_bounded a y) as (m & -> & Hmc); [lra | ].
  assert (- a <= m <= a) as Hm' by (destruct Hmc as [-> | [-> _]]; lra).
  destruct (Binary64_nadd_bounded acc m) as (acc' & -> & Hc); [lra | ].
  exists acc'. split; [reflexivity | ].
  destruct Hc as [-> | [-> _]]; lra.
Qed.

Section Instrument64.

Variable tmax : R.
Hypothesis waveFunc_range :
  forall x, 0 <= x -> finite64 (2 * PI * x) ->
            exists y, waveFunc (Fin x) = Fin y /\ -1 <= y <= 1.

(** The loop of [Instrument] adds to [sample] at most the envelope times
    the sum of the weights, in absolute value. *)
Lemma Binary64_overtone_loop_bound (e : R) (ws : list R) :
  Binary64.attackAndDecay (Binary64.ndiv (Fin t) (Fin tmax)) (Fin 0.1) (Fin 0.5)
  = Fin e ->
  0 <= e <= 1 ->
  Forall (fun w => 0 <= w) ws ->
  forall k acc b,
    (k + List.length ws <= n)%nat ->
    - b <= acc <= b -> b + e * Rsum ws <= maxFinite ->
    exists acc',
      Binary64.overtone_loop waveFunc (map Fin ws) k (Fin t) (Fin freq)
        (Fin tmax) (Fin acc) = Fin acc'
      /\ - (b + e * Rsum ws) <= acc' <= b + e * Rsum ws.
Proof.
  intros He Hpos Hws. induction Hws as [| w ws Hw Hrest IH];
    intros k acc b Hk Hacc Hb.
  - exists acc. split; [reflexivity | ]. unfold Rsum. cbn [fold_right]. lra.
  - cbn [List.length] in Hk.
    pose proof (Rsum_nonneg ws Hrest) as Hr.
    assert (Rsum (w :: ws) = w + Rsum ws) as E by reflexivity.
    rewrite E in *.
    cbn [map Binary64.overtone_loop]. rewrite He.
    destruct (Binary64_overtone_arg k) as (x & -> & Hx & Hfin); [lia | ].
    destruct (waveFunc_range x Hx Hfin) as (y & -> & Hy).
    destruct (Binary64_term w e y acc b Hw Hpos Hy Hacc) as (acc1 & -> & Hacc1);
      [nra | ].
    destruct (IH (S k) acc1 (b + e * w)) as (acc' & -> & Hacc');
      [lia | lra | nra | ].
    exists acc'. split; [reflexivity | ]. lra.
Qed.

End Instrument64.

(** The loop of [SimpleInstrument], likewise, with its own envelope. *)
Lemma Binary64_simple_loop_bound (e : R) (ws : list R) :
  Binary64.lognormal (Binary64.nmul (Fin 50) (Fin t)) = Fin e ->
  0 <= e <= 1 ->
  Forall (fun w => 0 <= w) ws ->
  forall k acc b,
    (k + List.length ws <= n)%nat ->
    - b <= acc <= b -> b + e * Rsum ws <= maxFinite ->
    exists acc',
      Binary64.simple_loop (map Fin ws) k (Fin t) (Fin freq) (Fin acc) = Fin acc'
      /\ - (b + e * Rsum ws) <= acc' <= b + e * Rsum ws.
Proof.
  intros He Hpos Hws. induction Hws as [| w ws Hw Hrest IH];
    intros k acc b Hk Hacc Hb.
  - exists acc. split; [reflexivity | ]. unfold Rsum. cbn [fold_right]. lra.
  - cbn [List.length] in Hk.
    pose proof (Rsum_nonneg ws Hrest) as Hr.
    assert (Rsum (w :: ws) = w + Rsum ws) as E by reflexivity.
    rewrite E in *.
    cbn [map Binary64.simple_loop]. rewrite He.
    destruct (Binary64_sine_arg k) as (y & -> & Hy); [lia | ].
    destruct (Binary64_term w e y acc b Hw Hpos Hy Hacc) as (acc1 & -> & Hacc1);
      [nra | ].
    destruct (IH (S k) acc1 (b + e * w)) as (acc' & -> & Hacc');
      [lia | lra | nra | ].
    exists acc'. split; [reflexivity | ]. lra.
Qed.

End Overtones64.

(** The envelope [lognormal(50 * t)] within the range. *)
Lemma Binary64_envelope (t : R) :
  0 <= t ->
  exists e, Binary64.lognormal (Binary64.nmul (Fin 50) (Fin t)) = Fin e
            /\ 0 <= e <= 1 / sqrt (2 * PI)
            /\ (t = 0 -> e = 0).
Proof.
  intros Ht.
  assert (Binary64.nmul (Fin 50) (Fin t) = fl (50 * t)) as E by reflexivity.
  destruct (fl_spec (50 * t)) as [(_ & H) | [(H & _) | (v & H & _ & Hv)]].
  - rewrite E, H.
    destruct (Binary64_lognormal_range PInf) as (e & He & Hr & _); [now left | ].
    exists e. split; [exact He | split; [exact Hr | ] ].
    intros ->. rewrite Rmult_0_r, fl_0 in H. discriminate.
  - pose proof overflowBound_large. lra.
  - rewrite E, H.
    assert (0 <= v) as Hv0 by (destruct Hv as [-> | [-> _]]; lra).
    destruct (Binary64_lognormal_range (Fin v)) as (e & He & Hr & Hz);
      [right; now exists v | ].
    exists e. split; [exact He | split; [exact Hr | ] ].
    intros ->. apply Hz. apply Fin_eq.
    destruct Hv as [-> | [-> _]]; lra.
Qed.

(** The samples of an [Instrument] and of a [SimpleInstrument] with
    non-negative weights, within the envelope. *)
Lemma Binary64_Instrument_sample (ws : list R) (waveFunc : num -> num)
    (freq t tmax : R) (inst : RawInstrument) :
  Forall (fun w => 0 <= w /\ number64 w) ws ->
  0 < Rsum ws <= maxFinite ->
  (forall x, 0 <= x -> finite64 (2 * PI * x) ->
             exists y, waveFunc (Fin x) = Fin y /\ -1 <= y <= 1) ->
  0 <= freq -> 0 < tmax -> 0 <= t <= tmax ->
  finite64 (2 * PI * (freq * INR (List.length ws))) ->
  finite64 (2 * PI * (freq * INR (List.length ws)) * tmax) ->
  Binary64.Instrument (map Fin ws) (Some waveFunc) = Normal inst ->
  exists s e,
    waveformFunc inst (Fin t) (Fin freq) (Fin tmax) = Fin s
    /\ Binary64.attackAndDecay (Binary64.ndiv (Fin t) (Fin tmax))
         (Fin 0.1) (Fin 0.5) = Fin e
    /\ 0 <= e <= 1 /\ - e <= s <= e.
Proof.
  intros Hws Hsum Hwave Hfreq Htmax Ht Hf1 Hf2 Hinst.
  pose proof PI_range as HPI. pose proof overflowBound_large as Hob.
  assert (0 <= freq * INR (List.length ws)) as Hfn
    by (pose proof (pos_INR (List.length ws)); nra).
  assert (0 <= 2 * PI * (freq * INR (List.length ws))) as Hfn1 by nra.
  assert (0 <= 2 * PI * (freq * INR (List.length ws)) * tmax) as Hfn2 by nra.
  unfold finite64 in Hf1, Hf2. rewrite Rabs_pos_eq in Hf1, Hf2 by assumption.
  unfold Binary64.Instrument in Hinst.
  rewrite (Binary64_reduce_add_Fin ws Hws Hsum) in Hinst.
  apply Normal_inj in Hinst. subst inst. cbn [waveformFunc].
  pose proof (ratio_le_1 t tmax Htmax Ht) as Hx.
  destruct (Binary64_ndiv_bounded t tmax) as (x & Ex & Hxc); [lra | lra | ].
  assert (0 <= x <= 1) as Hx' by (destruct Hxc as [-> | [-> _]]; lra).
  destruct (Binary64_attackAndDecay_unit x Hx') as (e & He & He01 & _).
  rewrite <- Ex in He.
  destruct (Binary64_overtone_loop_bound waveFunc freq t (List.length ws)
              Hfreq (proj1 Ht) Hf1 ltac:(nra) tmax Hwave e ws He He01
              (weights_nonneg ws Hws) 0%nat 0 0)
    as (acc & Hacc & Hb); [cbn; lia | lra | nra | ].
  destruct (Binary64_normalized_bound acc (Rsum ws) e (proj1 Hsum) He01)
    as (q & Hq & Hqb & _); [lra | ].
  exists q, e. rewrite Hacc. repeat split; try assumption; lra.
Qed.

Lemma Binary64_SimpleInstrument_sample (ws : list R) (freq t : R)
    (simple : num -> num -> num) :
  Forall (fun w => 0 <= w /\ number64 w) ws ->
  0 < Rsum ws <= maxFinite ->
  0 <= freq -> 0 <= t ->
  finite64 (2 * PI * (freq * INR (List.length ws))) ->
  finite64 (2 * PI * (freq * INR (List.length ws)) * t) ->
  Binary64.SimpleInstrument (map Fin ws) = Normal simple ->
  exists s e,
    simple (Fin t) (Fin freq) = Fin s
    /\ Binary64.lognormal (Binary64.nmul (Fin 50) (Fin t)) = Fin e
    /\ 0 <= e <= 1 / sqrt (2 * PI) /\ - e <= s <= e.
Proof.
  intros Hws Hsum Hfreq Ht Hf1 Hf2 Hsimple.
  pose proof PI_range as HPI. pose proof peak_range as Hp.
  assert (0 <= freq * INR (List.length ws)) as Hfn
    by (pose proof (pos_INR (List.length ws)); nra).
  assert (0 <= 2 * PI * (freq * INR (List.length ws))) as Hfn1 by nra.
  assert (0 <= 2 * PI * (freq * INR (List.length ws)) * t) as Hfn2 by nra.
  unfold finite64 in Hf1, Hf2. rewrite Rabs_pos_eq in Hf1, Hf2 by assumption.
  unfold Binary64.SimpleInstrument in Hsimple.
  rewrite (Binary64_reduce_add_Fin ws Hws Hsum) in Hsimple.
  apply Normal_inj in Hsimple. subst simple. cbn beta.
  destruct (Binary64_envelope t Ht) as (e & He & Her & _).
  assert (0 <= e <= 1) as He01 by lra.
  destruct (Binary64_simple_loop_bound freq t (List.length ws)
              Hfreq Ht Hf1 Hf2 e ws He He01
              (weights_nonneg ws Hws) 0%nat 0 0)
    as (acc & Hacc & Hb); [cbn; lia | lra | nra | ].
  destruct (Binary64_normalized_bound acc (Rsum ws) e (proj1 Hsum) He01)
    as (q & Hq & Hqb & _); [lra | ].
  exists q, e. rewrite Hacc. repeat split; try assumption; lra.
Qed.

(** ** Boundedness of the samples *)

(** Against C1 as stated: the weights 2 and -1 have the
    positive sum 1, and with the square wave the sample at time 0.3 of a note
    of frequency 1 and duration 1 is 3. *)
Lemma Instrument_negative_weight :
  reduce_add [Fin 2; Fin (-1)] = Normal (Fin (2 + -1))
  /\ Instrument [Fin 2; Fin (-1)] (Some SQUARE) = Normal skewedInstrument
  /\ waveformFunc skewedInstrument (Fin 0.3) (Fin 1) (Fin 1) = Fin 3.
Proof.
  split; [reflexivity | split; [reflexivity | ] ].
  cbn [waveformFunc skewedInstrument overtone_loop].
  rewrite ndiv_Fin by lra.
  rewrite attackAndDecay_hold by lra.
  cbn [nmul].
  rewrite SQUARE_first_half by (cbn [INR Nat.add]; lra).
  rewrite SQUARE_second_half by (cbn [INR Nat.add]; lra).
  cbn [nmul nadd]. rewrite ndiv_Fin by lra.
  apply Fin_eq. replace (2 + -1) with 1 by lra. lra.
Qed.

(** C1, amended.  For weights that are non-negative numbers with a positive
    finite sum, a wave function with values in [-1, 1] at every [x >= 0] for
    which [2 pi x] is finite (as the square, triangle and sine waves are), a
    frequency [>= 0], a duration [> 0] and a time from 0 to the duration,
    such that [2 pi] times the highest overtone frequency, and that times the
    duration, are finite (so that no product of the loop overflows), the
    construction of the [Instrument] succeeds and its waveform function
    gives a sample in [-1, 1]; so does the waveform function of the
    log-normal [SimpleInstrument]. *)
Theorem Instrument_samples_bounded (ws : list R) (waveFunc : num -> num)
    (freq t tmax : R) :
  Forall (fun w => 0 <= w /\ number64 w) ws ->
  0 < Rsum ws <= maxFinite ->
  (forall x, 0 <= x -> finite64 (2 * PI * x) ->
             exists y, waveFunc (Fin x) = Fin y /\ -1 <= y <= 1) ->
  0 <= freq ->
  0 < tmax ->
  0 <= t <= tmax ->
  finite64 (2 * PI * (freq * INR (List.length ws))) ->
  finite64 (2 * PI * (freq * INR (List.length ws)) * tmax) ->
  (exists inst s,
     Binary64.Instrument (map Fin ws) (Some waveFunc) = Normal inst
     /\ waveformFunc inst (Fin t) (Fin freq) (Fin tmax) = Fin s
     /\ -1 <= s <= 1)
  /\ (exists simple s,
        Binary64.SimpleInstrument (map Fin ws) = Normal simple
        /\ simple (Fin t) (Fin freq) = Fin s
        /\ -1 <= s <= 1)
  /\ (forall wave,
        In wave [Binary64.SQUARE; Binary64.TRIANGLE; Binary64.SINE] ->
        forall x, 0 <= x -> finite64 (2 * PI * x) ->
                  exists y, wave (Fin x) = Fin y /\ -1 <= y <= 1).
Proof.
  intros Hws Hsum Hwave Hfreq Htmax Ht Hf1 Hf2.
  pose proof (Binary64_reduce_add_Fin ws Hws Hsum) as Hred.
  split; [ | split ].
  - assert (exists inst,
              Binary64.Instrument (map Fin ws) (Some waveFunc) = Normal inst)
      as (inst & Hinst)
      by (unfold Binary64.Instrument; rewrite Hred; eexists; reflexivity).
    destruct (Binary64_Instrument_sample ws waveFunc freq t tmax inst
                Hws Hsum Hwave Hfreq Htmax Ht Hf1 Hf2 Hinst)
      as (s & e & Hs & _ & He & Hb).
    exists inst, s. split; [exact Hinst | split; [exact Hs | lra] ].
  - assert (exists simple,
              Binary64.SimpleInstrument (map Fin ws) = Normal simple)
      as (simple & Hsimple)
      by (unfold Binary64.SimpleInstrument; rewrite Hred; eexists; reflexivity).
    assert (finite64 (2 * PI * (freq * INR (List.length ws)) * t)) as Hf3.
    { pose proof PI_range as HPI.
      assert (0 <= freq * INR (List.length ws)) as Hfn
        by (pose proof (pos_INR (List.length ws)); nra).
      assert (0 <= 2 * PI * (freq * INR (List.length ws))) as Hfn1 by nra.
      unfold finite64 in *. rewrite Rabs_pos_eq in * by nra. nra. }
    destruct (Binary64_SimpleInstrument_sample ws freq t simple
                Hws Hsum Hfreq (proj1 Ht) Hf1 Hf3 Hsimple)
      as (s & e & Hs & _ & He & Hb).
    pose proof peak_range as Hp.
    exists simple, s. split; [exact Hsimple | split; [exact Hs | lra] ].
  - intros wave Hin x Hx Hfin. cbn [In] in Hin.
    destruct Hin as [<- | [<- | [<- | []]]].
    + apply Binary64_SQUARE_range.
    + now apply Binary64_TRIANGLE_range.
    + now apply Binary64_SINE_range.
Qed.

Lemma Instrument_samples_bounded_witness :
  exists inst s,
    Binary64.Instrument (map Fin [1; 0; 0; 1 / 4]) (Some Binary64.SINE)
    = Normal inst
    /\ waveformFunc inst (Fin (3 / 100)) (Fin 440) (Fin (3 / 40)) = Fin s
    /\ -1 <= s <= 1.
Proof.
  apply (Instrument_samples_bounded [1; 0; 0; 1 / 4] Binary64.SINE
           440 (3 / 100) (3 / 40)).
  - repeat (apply Forall_cons; [split; [lra | apply number64_small; lra] | ]).
    apply Forall_nil.
  - pose proof maxFinite_large. unfold Rsum. cbn [fold_right]. lra.
  - intros x Hx Hfin. now apply Binary64_SINE_range.
  - lra.
  - lra.
  - lra.
  - pose proof PI_range. apply finite64_small. cbn [List.length INR]. lra.
  - pose proof PI_range. apply finite64_small. cbn [List.length INR]. lra.
Defined.

(** ** The log-normal instrument *)

Lemma lognormal_one : lognormal (Fin 1) = Fin (1 / sqrt (2 * PI)).
Proof.
  rewrite lognormal_pos by lra. apply Fin_eq. rewrite ln_1.
  replace (-1 / 2 * (0 * 0)) with 0 by lra. rewrite exp_0. lra.
Qed.

(** Against C10 as stated: with the weights 1 and -1, whose sum is 0, the
    sample at the start of a note is [NaN]; with the weights 1, 0 and -9/10,
    whose sum is positive, the sample at time 1/50 of a note of frequency
    25/2 is [19/sqrt(2 pi)], beyond full scale. *)
Lemma SimpleInstrument_negative_weight :
  (exists simple,
     SimpleInstrument [Fin 1; Fin (-1)] = Normal simple
     /\ simple (Fin 0) (Fin 440) = NaN)
  /\ (exists simple,
        SimpleInstrument [Fin 1; Fin 0; Fin (-9 / 10)] = Normal simple
        /\ simple (Fin (1 / 50)) (Fin (25 / 2)) = Fin (19 * (1 / sqrt (2 * PI)))
        /\ 1 < 19 * (1 / sqrt (2 * PI))).
Proof.
  split.
  - eexists. split; [reflexivity | ]. cbn beta. cbn [simple_loop].
    cbn [nmul]. replace (50 * 0) with 0 by lra. rewrite lognormal_zero.
    cbn [nmul Math_PI Math_sin nadd fold_left ndiv].
    rewrite Reqb_true by lra. unfold inf_times.
    now rewrite !Rltb_false by lra.
  - eexists. split; [reflexivity | ]. cbn beta. cbn [simple_loop].
    cbn [nmul]. replace (50 * (1 / 50)) with 1 by lra. rewrite lognormal_one.
    cbn [nmul Math_PI Math_sin nadd fold_left Nat.add INR].
    replace (2 * PI * (25 / 2 * 1) * (1 / 50)) with (PI / 2) by lra.
    replace (2 * PI * (25 / 2 * (1 + 1)) * (1 / 50)) with PI by lra.
    replace (2 * PI * (25 / 2 * (1 + 1 + 1)) * (1 / 50)) with (3 * (PI / 2))
      by lra.
    rewrite sin_PI2, sin_PI, sin_3PI2.
    pose proof sqrt_2PI_gt_1 as Hs. pose proof PI_range as HPI.
    assert (sqrt (2 * PI) < 2 * PI) as Hs' by (apply sqrt_less; lra).
    pose proof peak_range as Hp.
    assert (1 / sqrt (2 * PI) * sqrt (2 * PI) = 1) as E
      by (unfold Rdiv; rewrite Rmult_1_l; apply Rinv_l; lra).
    split.
    + rewrite ndiv_Fin by lra. apply Fin_eq. lra.
    + nra.
Qed.

(** C10, amended.  For every [x >= 0] the value of [lognormal] is a number
    between 0 and [1/sqrt(2 pi)], which is less than 1; it is 0 at 0 and
    reaches [1/sqrt(2 pi)] at 1 only; within the range of binary64 the value
    is between the same bounds.  Hence the envelope [lognormal(50*t)] of the
    log-normal instrument is 0 at the start of a note and below 1 at every
    time.  For a [SimpleInstrument] whose weights are non-negative numbers
    with a positive finite sum and a frequency [>= 0] such that [2 pi] times
    the highest overtone frequency is finite, the sample at the start of a
    note is 0, and at every time [t >= 0] for which that product times [t]
    is finite the sample is within [1/sqrt(2 pi)] of 0. *)
Theorem lognormal_range (x : R) :
  0 <= x ->
  (exists y, lognormal (Fin x) = Fin y
             /\ 0 <= y <= 1 / sqrt (2 * PI)
             /\ (y = 1 / sqrt (2 * PI) <-> x = 1))
  /\ 1 / sqrt (2 * PI) < 1
  /\ lognormal (Fin 0) = Fin 0
  /\ lognormal (nmul (Fin 50) (Fin 0)) = Fin 0
  /\ (forall t, 0 <= t ->
        exists e, lognormal (nmul (Fin 50) (Fin t)) = Fin e /\ 0 <= e < 1)
  /\ (exists y, Binary64.lognormal (Fin x) = Fin y
                /\ 0 <= y <= 1 / sqrt (2 * PI))
  /\ (forall ws freq,
        Forall (fun w => 0 <= w /\ number64 w) ws ->
        0 < Rsum ws <= maxFinite ->
        0 <= freq ->
        finite64 (2 * PI * (freq * INR (List.length ws))) ->
        exists simple,
          Binary64.SimpleInstrument (map Fin ws) = Normal simple
          /\ simple (Fin 0) (Fin freq) = Fin 0
          /\ forall t,
               0 <= t ->
               finite64 (2 * PI * (freq * INR (List.length ws)) * t) ->
               exists s, simple (Fin t) (Fin freq) = Fin s
                         /\ - (1 / sqrt (2 * PI)) <= s <= 1 / sqrt (2 * PI)).
Proof.
  intros Hx. pose proof peak_range as Hp.
  split; [ | split; [ | split; [ | split; [ | split; [ | split ] ] ] ] ].
  - destruct (lognormal_nonneg_arg x Hx) as (y & Hy & Hr & Hpeak & _).
    exists y. repeat split; try assumption; try lra; apply Hpeak.
  - lra.
  - apply lognormal_zero.
  - cbn [nmul]. replace (50 * 0) with 0 by lra. apply lognormal_zero.
  - intros t Ht. cbn [nmul].
    destruct (lognormal_nonneg_arg (50 * t)) as (e & He & Hr & _); [lra | ].
    exists e. split; [exact He | lra].
  - destruct (Binary64_lognormal_range (Fin x)) as (y & Hy & Hr & _);
      [right; now exists x | ].
    now exists y.
  - intros ws freq Hws Hsum Hfreq Hf1.
    assert (exists simple,
              Binary64.SimpleInstrument (map Fin ws) = Normal simple)
      as (simple & Hsimple).
    { unfold Binary64.SimpleInstrument.
      rewrite (Binary64_reduce_add_Fin ws Hws Hsum). eexists. reflexivity. }
    exists simple. split; [exact Hsimple | split ].
    + assert (finite64 (2 * PI * (freq * INR (List.length ws)) * 0)) as Hf0.
      { unfold finite64. rewrite Rmult_0_r, Rabs_R0.
        pose proof maxFinite_large. lra. }
      destruct (Binary64_SimpleInstrument_sample ws freq 0 simple
                  Hws Hsum Hfreq (Rle_refl 0) Hf1 Hf0 Hsimple)
        as (s & e & Hs & He & _ & Hb).
      destruct (Binary64_envelope 0 (Rle_refl 0)) as (e' & He' & _ & Hz).
      rewrite He in He'. injection He' as <-.
      rewrite Hs. apply Fin_eq. specialize (Hz eq_refl). lra.
    + intros t Ht Hf2.
      destruct (Binary64_SimpleInstrument_sample ws freq t simple
                  Hws Hsum Hfreq Ht Hf1 Hf2 Hsimple)
        as (s & e & Hs & _ & He & Hb).
      exists s. split; [exact Hs | lra].
Qed.

Lemma lognormal_range_witness :
  exists y, lognormal (Fin 1) = Fin y
            /\ 0 <= y <= 1 / sqrt (2 * PI)
            /\ (y = 1 / sqrt (2 * PI) <-> 1 = 1).
Proof.
  apply (lognormal_range 1). lra.
Defined.

(** * Further properties of the code *)

(** ** The envelope with any breakpoints, and outside the note *)




(** X3.  The envelope does not clamp: with the breakpoints 0.1 and 0.5 it is
    negative before the start of the note ([x < 0]) and past its end
    ([x > 1]), it is [NaN] at [NaN] and [-Infinity] at both infinities.  With
    the decay point 1 the envelope at the end of the note is [NaN]. *)
Theorem attackAndDecay_outside :
  (forall x, x < 0 ->
     exists e, attackAndDecay (Fin x) (Fin 0.1) (Fin 0.5) = Fin e /\ e < 0)
  /\ (forall x, 1 < x ->
        exists e, attackAndDecay (Fin x) (Fin 0.1) (Fin 0.5) = Fin e /\ e < 0)
  /\ attackAndDecay NaN (Fin 0.1) (Fin 0.5) = NaN
  /\ attackAndDecay PInf (Fin 0.1) (Fin 0.5) = NInf
  /\ attackAndDecay NInf (Fin 0.1) (Fin 0.5) = NInf
  /\ (forall a, a <= 1 -> attackAndDecay (Fin 1) (Fin a) (Fin 1) = NaN).
Proof.
  split; [ | split; [ | split; [ | split; [ | split ] ] ] ].
  - intros x Hx. exists (10 * x).
    split; [apply attackAndDecay_attack; lra | lra].
  - intros x Hx. exists (2 - 2 * x).
    split; [apply attackAndDecay_decay; lra | lra].
  - unfold attackAndDecay. cbn [nlt nsub nneg nadd].
    now rewrite nmul_NaN_r.
  - unfold attackAndDecay. cbn [nlt nsub nneg nadd].
    rewrite ndiv_Fin by lra. cbn [nmul]. unfold inf_times.
    assert (-1 / (1 + - (0.5)) < 0) as H
      by (replace (1 + - (0.5)) with (1 / 2) by lra; lra).
    rewrite Rltb_false, Rltb_true by lra. reflexivity.
  - unfold attackAndDecay. cbn [nlt]. rewrite ndiv_Fin by lra.
    cbn [nmul]. unfold inf_times.
    assert (0 < 1 / 0.1) as H by lra.
    rewrite Rltb_true by lra. reflexivity.
  - intros a Ha. unfold attackAndDecay. cbn [nlt].
    rewrite !Rltb_false by lra.
    cbn [nsub nneg nadd ndiv]. rewrite Reqb_true by lra.
    unfold inf_times at 1. rewrite Rltb_false, Rltb_true by lra.
    cbn [nmul]. unfold inf_times. rewrite !Rltb_false by lra.
    reflexivity.
Qed.

Lemma attackAndDecay_outside_witness :
  exists e, attackAndDecay (Fin 2) (Fin 0.1) (Fin 0.5) = Fin e /\ e < 0.
Proof.
  destruct attackAndDecay_outside as (_ & H & _). apply (H 2). lra.
Defined.

(** ** The wave shapes: period and negative arguments *)

Lemma Rtrunc_succ (x : R) : 0 <= x -> Rtrunc (x + 1) = (Rtrunc x + 1)%Z.
Proof.
  intros Hx. unfold Rtrunc. rewrite !Rltb_false by lra.
  symmetry. apply Int_part_spec. rewrite plus_IZR.
  pose proof (base_Int_part x). lra.
Qed.

Lemma nrem_1_period (x : R) :
  0 <= x -> nrem (Fin (x + 1)) (Fin 1) = nrem (Fin x) (Fin 1).
Proof.
  intros Hx. rewrite !nrem_1. apply Fin_eq.
  replace ((x + 1) / 1) with (x / 1 + 1) by lra.
  rewrite Rtrunc_succ by lra. rewrite plus_IZR. lra.
Qed.

Lemma nrem_1_negative (x : R) :
  x < 0 -> exists r, nrem (Fin x) (Fin 1) = Fin r /\ -1 < r <= 0.
Proof.
  intros Hx. rewrite nrem_1. eexists. split; [reflexivity | ].
  unfold Rtrunc. rewrite Rltb_true by lra. rewrite opp_IZR.
  pose proof (base_Int_part (- (x / 1))). lra.
Qed.

(** X4.  Each wave of [Instrument.WAVES] has one cycle per unit: the sine at
    every argument, the square and the triangle at every argument [>= 0]. *)
Theorem WAVES_period (x : R) :
  SINE (Fin (x + 1)) = SINE (Fin x)
  /\ (0 <= x -> SQUARE (Fin (x + 1)) = SQUARE (Fin x))
  /\ (0 <= x -> TRIANGLE (Fin (x + 1)) = TRIANGLE (Fin x)).
Proof.
  split; [ | split ].
  - unfold SINE. cbn [nmul Math_PI Math_sin]. apply Fin_eq.
    rewrite <- (sin_period (2 * PI * x) 1). f_equal. cbn [INR]. lra.
  - intros Hx. unfold SQUARE. now rewrite nrem_1_period.
  - intros Hx. unfold TRIANGLE. now rewrite nrem_1_period.
Qed.

Lemma WAVES_period_witness :
  SQUARE (Fin (1 / 4 + 1)) = SQUARE (Fin (1 / 4)).
Proof.
  destruct (WAVES_period (1 / 4)) as (_ & H & _). apply H. lra.
Defined.

(** X5.  At negative arguments the remainder [t % 1] is in (-1, 0], so the
    square wave is constantly 1 and the triangle wave lies in (-3, -1],
    outside the interval [-1, 1] that the waves are documented to have
    (except at the integers, where it is -1). *)
Theorem WAVES_negative (x : R) :
  x < 0 ->
  SQUARE (Fin x) = Fin 1
  /\ exists y, TRIANGLE (Fin x) = Fin y /\ -3 < y <= -1
               /\ (y = -1 <-> x = IZR (Rtrunc x)).
Proof.
  intros Hx. destruct (nrem_1_negative x Hx) as (r & Hr & Hrange).
  split.
  - unfold SQUARE. rewrite Hr. cbn [nlt]. now rewrite Rltb_true by lra.
  - unfold TRIANGLE. rewrite Hr. cbn [nmul nsub nneg nadd].
    eexists. split; [reflexivity | ]. split; [lra | ].
    rewrite nrem_1 in Hr. injection Hr as Hr.
    replace (x / 1) with x in Hr by lra. lra.
Qed.

Lemma WAVES_negative_witness :
  SQUARE (Fin (-1 / 2)) = Fin 1.
Proof.
  apply (WAVES_negative (-1 / 2)). lra.
Defined.

(** ** The order of the pitches *)

(** X6.  In every octave from -1026 to 1018 the twelve pitch classes ascend
    in frequency from C to B, and B lies below the C of the next octave. *)
Theorem chromatic_ascending (o : Z) (l : R) :
  (-1026 <= o <= 1018)%Z ->
  (forall k a b,
     nth_error chromatic k = Some a ->
     nth_error chromatic (S k) = Some b ->
     nlt (Binary64.getFreq (mkNote a o l)) (Binary64.getFreq (mkNote b o l))
     = true)
  /\ nlt (Binary64.getFreq (mkNote "B" o l))
         (Binary64.getFreq (mkNote "C" (o + 1) l)) = true.
Proof.
  intros Ho. pose proof (powerRZ_2_pos (o - 8)) as Hp.
  split.
  - intros k a b Ha Hb.
    do 11 (destruct k as [| k];
           [ cbn in Ha, Hb; injection Ha as <-; injection Hb as <-;
             match goal with
             | |- nlt (Binary64.getFreq (mkNote ?a _ _))
                      (Binary64.getFreq (mkNote ?b _ _)) = true =>
                 destruct (Binary64_getFreq_recognized a o l _ eq_refl
                             ltac:(lia)) as (-> & _);
                 destruct (Binary64_getFreq_recognized b o l _ eq_refl
                             ltac:(lia)) as (-> & _)
             end;
             cbn [nlt]; apply Rltb_true; nra | ]).
    destruct k; cbn in Hb; discriminate.
  - destruct (Binary64_getFreq_recognized "B" o l _ eq_refl ltac:(lia))
      as (-> & _).
    destruct (Binary64_getFreq_recognized "C" (o + 1) l _ eq_refl ltac:(lia))
      as (-> & _).
    cbn [nlt]. apply Rltb_true.
    replace (o + 1 - 8)%Z with ((o - 8) + 1)%Z by lia.
    rewrite powerRZ_2_S. nra.
Qed.

Lemma chromatic_ascending_witness :
  (-1026 <= 4 <= 1018)%Z
  /\ nlt (Binary64.getFreq (mkNote "E" 4 1)) (Binary64.getFreq (mkNote "F" 4 1))
     = true.
Proof.
  split; [lia | ].
  destruct (chromatic_ascending 4 1) as [H _]; [lia | ].
  apply (H 4%nat); reflexivity.
Defined.

(** ** The shape of the log-normal envelope *)

Lemma exp_le (u v : R) : u <= v -> exp u <= exp v.
Proof.
  intros [H | ->]; [ | lra ]. pose proof (exp_increasing u v H). lra.
Qed.

Lemma ln_le_compat (x y : R) : 0 < x -> x <= y -> ln x <= ln y.
Proof.
  intros Hx [H | ->]; [ | lra ]. pose proof (ln_increasing x y Hx H). lra.
Qed.

(** X7.  [lognormal] does not decrease on [0, 1] and does not increase on
    [1, infinity): the envelope [lognormal(50*t)] rises until [t = 1/50] and
    falls from then on. *)
Theorem lognormal_monotone (x y : R) :
  x <= y ->
  (0 <= x -> y <= 1 -> nle (lognormal (Fin x)) (lognormal (Fin y)))
  /\ (1 <= x -> nle (lognormal (Fin y)) (lognormal (Fin x))).
Proof.
  intros Hxy. pose proof peak_range as [Hp _]. split.
  - intros Hx Hy. destruct Hx as [Hx | <-].
    + rewrite !lognormal_pos by lra. cbn [nle].
      apply Rmult_le_compat_l; [lra | ]. apply exp_le.
      pose proof (ln_le_compat x y Hx Hxy) as H1.
      pose proof (ln_le_compat y 1 ltac:(lra) Hy) as H2. rewrite ln_1 in H2.
      nra.
    + rewrite lognormal_zero.
      destruct (lognormal_nonneg_arg y Hxy) as (v & -> & Hv & _).
      cbn [nle]. lra.
  - intros Hx. rewrite !lognormal_pos by lra. cbn [nle].
    apply Rmult_le_compat_l; [lra | ]. apply exp_le.
    pose proof (ln_le_compat 1 x ltac:(lra) Hx) as H1. rewrite ln_1 in H1.
    pose proof (ln_le_compat x y ltac:(lra) Hxy) as H2.
    nra.
Qed.

Lemma lognormal_monotone_witness :
  nle (lognormal (Fin 3)) (lognormal (Fin 2)).
Proof.
  apply (lognormal_monotone 2 3); lra.
Defined.

(** X8.  [lognormal] takes the same value at [x] and at [1/x] for every
    [x > 0]; it is [NaN] at every negative argument, at [-Infinity] and at
    [NaN], and 0 at [Infinity]. *)
Theorem lognormal_reciprocal_and_edges :
  (forall x, 0 < x -> lognormal (ndiv (Fin 1) (Fin x)) = lognormal (Fin x))
  /\ (forall x, x < 0 -> lognormal (Fin x) = NaN)
  /\ lognormal NInf = NaN
  /\ lognormal NaN = NaN
  /\ lognormal PInf = Fin 0.
Proof.
  split; [ | split; [ | split; [ | split ] ] ].
  - intros x Hx. rewrite ndiv_Fin by lra.
    assert (0 < 1 / x) as Hi by (apply Rdiv_lt_0_compat; lra).
    rewrite !lognormal_pos by assumption. apply Fin_eq.
    replace (1 / x) with (/ x) by (unfold Rdiv; ring).
    rewrite ln_Rinv by exact Hx. f_equal. f_equal. ring.
  - intros x Hx. unfold lognormal. rewrite peak_Fin.
    cbn [Math_log]. rewrite Rltb_true by exact Hx.
    cbn [Math_pow]. rewrite Reqb_false by lra. now rewrite nmul_NaN_r.
  - unfold lognormal. rewrite peak_Fin. cbn [Math_log Math_pow].
    rewrite Reqb_false by lra. now rewrite nmul_NaN_r.
  - unfold lognormal. rewrite peak_Fin. cbn [Math_log Math_pow].
    rewrite Reqb_false by lra. now rewrite nmul_NaN_r.
  - unfold lognormal. rewrite peak_Fin. cbn [Math_log Math_pow].
    rewrite Reqb_false, Rltb_true by lra.
    rewrite ndiv_Fin by lra. cbn [nmul]. unfold inf_times.
    rewrite Rltb_false, Rltb_true by lra.
    cbn [nneg Math_pow Math_E].
    assert (1 < exp 1) by (pose proof (exp_ineq1 1); lra).
    rewrite Rabs_pos_eq by lra. rewrite Rltb_true by lra.
    cbn [nmul]. apply Fin_eq. lra.
Qed.

Lemma lognormal_reciprocal_and_edges_witness :
  lognormal (ndiv (Fin 1) (Fin 4)) = lognormal (Fin 4).
Proof.
  destruct lognormal_reciprocal_and_edges as (H & _). apply (H 4). lra.
Defined.

(** ** The normalisation by the sum of the weights *)




Section Linear.

Variable waveFunc : num -> num.
Hypothesis waveFunc_finite : forall x, exists y, waveFunc (Fin x) = Fin y.

Variables freq t tmax e : R.
Hypothesis envelope_value :
  attackAndDecay (ndiv (Fin t) (Fin tmax)) (Fin 0.1) (Fin 0.5) = Fin e.


End Linear.





(** ** A note of unknown pitch, by wave shape *)






(** ** The rendered buffer *)

(** The time [k / sampleRate] of sample [k] is computed without loss. *)
Lemma Binary64_sample_time (k : nat) (rate : R) :
  0 < rate <= maxFinite -> INR k / rate <= maxFinite ->
  Binary64.ndiv (Fin (INR k)) (Fin rate) = Fin (INR k / rate).
Proof.
  intros Hrate Hq. pose proof maxFinite_range as (_ & Hm & Hm').
  unfold Binary64.ndiv. rewrite ndiv_Fin by lra. cbn [Binary64.rnd].
  assert (INR k / rate * rate = INR k) as E
    by (unfold Rdiv; rewrite Rmult_assoc, Rinv_l by lra; lra).
  pose proof (pos_INR k) as Hk.
  assert (0 <= INR k / rate) as Hq0.
  { apply Rmult_le_reg_r with rate; [lra | ]. rewrite E. lra. }
  apply fl_Fin; rewrite Rabs_pos_eq by exact Hq0; [ | lra].
  destruct k as [| k].
  - left. cbn [INR]. unfold Rdiv. ring.
  - right. assert (1 <= INR (S k)) as H1.
    { rewrite S_INR. pose proof (pos_INR k). lra. }
    assert (underflowBound * powerRZ 2 1024 <= 1 / 2) as Hu.
    { unfold underflowBound. rewrite <- powerRZ_add by lra.
      pose proof (powerRZ_2_mono (-1075 + 1024) (-1) ltac:(lia)) as H.
      assert (powerRZ 2 (-1) = 1 / 2) as E1 by (simpl; lra). lra. }
    pose proof underflowBound_range as Hur.
    destruct (Rlt_dec underflowBound (INR (S k) / rate)) as [H | H];
      [exact H | exfalso].
    assert (INR (S k) / rate * rate <= underflowBound * powerRZ 2 1024) by nra.
    lra.
Qed.

(** X12.  The buffer that [_playFreq] submits has the channels of the buffer
    the host handed back and in each of them the same samples, as many as the
    buffer is long, sample [k] being the waveform at time [k / sampleRate].
    For an [Instrument] with non-negative weights of positive finite sum and
    a wave with values in [-1, 1], a frequency [>= 0], a positive sample
    rate and duration, no overflow in the loop ([2 pi] times the highest
    overtone frequency, and that times the duration, are finite) and a
    buffer of at most [sampleRate * time] frames, every sample of every
    channel lies in [-1, 1]. *)
Theorem _playFreq_buffer_bounded (inst : RawInstrument) (context : Host)
    (freq time : num) (channels : list (list num)) :
  In (Start channels) (_playFreq_calls inst context freq time) ->
  let buffer := createBuffer context 2 (nmul (sampleRate context) time)
                             (sampleRate context) in
  List.length channels = numberOfChannels buffer
  /\ (forall data, In data channels ->
        List.length data = channelLength buffer
        /\ forall k, (k < channelLength buffer)%nat ->
             nth_error data k
             = Some (waveformFunc inst
                       (ndiv (Fin (INR k)) (sampleRate context)) freq time))
  /\ (forall (ws : list R) (waveFunc : num -> num) (rate f tm : R),
        Forall (fun w => 0 <= w /\ number64 w) ws ->
        0 < Rsum ws <= maxFinite ->
        (forall x, 0 <= x -> finite64 (2 * PI * x) ->
                   exists y, waveFunc (Fin x) = Fin y /\ -1 <= y <= 1) ->
        Binary64.Instrument (map Fin ws) (Some waveFunc) = Normal inst ->
        sampleRate context = Fin rate -> freq = Fin f -> time = Fin tm ->
        0 < rate <= maxFinite -> 0 <= f -> 0 < tm <= maxFinite ->
        finite64 (2 * PI * (f * INR (List.length ws))) ->
        finite64 (2 * PI * (f * INR (List.length ws)) * tm) ->
        INR (channelLength buffer) <= rate * tm ->
        forall data, In data channels ->
        forall k, (k < channelLength buffer)%nat ->
          exists s,
            nth_error data k = Some (Fin s)
            /\ -1 <= s <= 1
            /\ Binary64.ndiv (Fin (INR k)) (Fin rate) = Fin (INR k / rate)
            /\ waveformFunc inst (Fin (INR k / rate)) (Fin f) (Fin tm) = Fin s).
Proof.
  intros Hin buffer.
  unfold _playFreq_calls in Hin. cbn [In] in Hin.
  destruct Hin as [[=] | [[=] | [[= <-] | []]]].
  fold buffer.
  assert (forall data,
            In data (map (fun _ => channelData inst context freq time
                                     (channelLength buffer))
                         (seq 0 (numberOfChannels buffer))) ->
            forall k, (k < channelLength buffer)%nat ->
              nth_error data k
              = Some (waveformFunc inst
                        (ndiv (Fin (INR k)) (sampleRate context)) freq time))
    as Hsample.
  { intros data Hdata k Hk. apply in_map_iff in Hdata as (c & <- & _).
    unfold channelData. rewrite nth_error_map, nth_error_seq.
    assert ((k <? channelLength buffer)%nat = true) as ->
      by (apply Nat.ltb_lt; lia).
    reflexivity. }
  split; [now rewrite length_map, length_seq | split].
  - intros data Hdata. split; [ | now apply Hsample].
    apply in_map_iff in Hdata as (c & <- & _).
    unfold channelData. now rewrite length_map, length_seq.
  - intros ws waveFunc rate f tm Hws Hsum Hwave Hinst Hrate -> ->
           Hpos Hf Htm Hf1 Hf2 Hlen data Hdata k Hk.
    assert (0 <= INR k / rate <= tm) as Ht.
    { assert (INR k <= INR (channelLength buffer)) by (apply le_INR; lia).
      pose proof (pos_INR k).
      split.
      - apply Rmult_le_reg_r with rate; [lra | ].
        unfold Rdiv. rewrite Rmult_assoc, Rinv_l by lra. lra.
      - apply Rmult_le_reg_r with rate; [lra | ].
        unfold Rdiv. rewrite Rmult_assoc, Rinv_l by lra. lra. }
    destruct (Binary64_Instrument_sample ws waveFunc f (INR k / rate) tm inst
                Hws Hsum Hwave Hf (proj1 Htm) Ht Hf1 Hf2 Hinst)
      as (s & e & Hs & _ & He & Hb).
    exists s. rewrite (Hsample data Hdata k Hk), Hrate.
    rewrite ndiv_Fin by lra. rewrite Hs.
    split; [reflexivity | split; [lra | split; [ | reflexivity] ] ].
    apply Binary64_sample_time; [exact Hpos | lra].
Qed.

Lemma _playFreq_buffer_bounded_witness :
  List.length [channelData sineInstrument smallHost (Fin 440) (Fin (1 / 8)) 1;
               channelData sineInstrument smallHost (Fin 440) (Fin (1 / 8)) 1]
  = numberOfChannels
      (createBuffer smallHost 2 (nmul (sampleRate smallHost) (Fin (1 / 8)))
                    (sampleRate smallHost)).
Proof.
  apply (_playFreq_buffer_bounded sineInstrument smallHost (Fin 440)
           (Fin (1 / 8))).
  unfold _playFreq_calls. right; right; left.
  cbn [sampleRate smallHost nmul]. replace (8 * (1 / 8)) with (IZR 1) by lra.
  fold smallHost. rewrite smallHost_frames. reflexivity.
Defined.

(** ** Invariants of the timer chain *)

Lemma run_timers_after (callback : sequencer -> sequencer) (fuel : nat) :
  forall s s', run_timers fuel callback s = Some s' -> s' = after fuel callback s.
Proof.
  induction fuel as [| fuel IH]; intros s s' H.
  - cbn [run_timers] in H. cbn [after].
    destruct (timers (host s)); [now injection H as <- | discriminate].
  - cbn [run_timers] in H. cbn [after]. unfold fire.
    destruct (timers (host s)) as [| due rest]; [now injection H as <- | ].
    now apply IH.
Qed.

(** What one call of [playNote] does to the timers and to the counts,
    whatever the tempo. *)
Lemma playNote_effect (this : RawInstrument) (context : Host) (e : entry)
    (bpm : num) (w : world) :
  (exists due, timers (playNote this context e bpm w) = timers w ++ [due])
  /\ count isCallback (trace (playNote this context e bpm w))
     = count isCallback (trace w)
  /\ List.length (delays (trace (playNote this context e bpm w)))
     = S (List.length (delays (trace w))).
Proof.
  destruct e as [n | r]; unfold playNote.
  - rewrite _playFreq_world. unfold setTimeout. cbn [now trace timers].
    split; [eexists; reflexivity | ].
    rewrite !count_app, !delays_app, count_stamped, delays_stamped_playFreq.
    rewrite !length_app. unfold count. cbn. lia.
  - unfold setTimeout. cbn [now trace timers].
    split; [eexists; reflexivity | ].
    rewrite !count_app, !delays_app, !length_app. unfold count. cbn. lia.
Qed.

(** The state of the chain between two activations: either one timer is armed
    and the callback has not been invoked, or no timer is armed, the
    callback has been invoked once and every entry has been taken. *)
Lemma nextNote_keeps (this : RawInstrument) (context : Host)
    (notes : list entry) (bpm : num) (s : sequencer) :
  timers (host s) = [] ->
  (i s <= List.length notes)%nat ->
  List.length (delays (trace (host s))) = i s ->
  count isCallback (trace (host s)) = 0%nat ->
  let s' := nextNote this context notes bpm s in
  (i s' <= List.length notes)%nat
  /\ List.length (delays (trace (host s'))) = i s'
  /\ ((exists due, timers (host s') = [due])
      /\ count isCallback (trace (host s')) = 0%nat
      \/ timers (host s') = []
         /\ count isCallback (trace (host s')) = 1%nat
         /\ i s' = List.length notes).
Proof.
  intros Ht Hi Hd Hc. unfold nextNote.
  destruct (nth_error notes (i s)) as [e |] eqn:E; cbn zeta; cbn [i host].
  - assert (i s < List.length notes)%nat
      by (apply nth_error_Some; congruence).
    destruct (playNote_effect this context e bpm (host s))
      as ((due & Hdue) & Hcb & Hdl).
    rewrite Hdue, Hcb, Hdl, Ht, Hd, Hc.
    split; [lia | split; [reflexivity | left ] ].
    split; [now exists due | reflexivity].
  - apply nth_error_None in E.
    unfold emit. cbn [trace timers].
    rewrite count_app, delays_app, Hc, Ht, length_app, Hd.
    split; [lia | split; [cbn; lia | right ] ].
    split; [reflexivity | split; [reflexivity | lia] ].
Qed.

(** X13.  At every point of a run of [playNotes], whatever the tempo (also
    0, negative or [NaN]): at most one timer is armed; the number of
    [setTimeout] calls made is the index [i], which never exceeds the length
    of the list; the completion callback has been invoked at most once, and
    it has been invoked exactly when no timer is armed, which happens only
    once every entry has been taken.  When the run ends within some fuel its
    final state is such a point. *)
Theorem sequencer_invariant (this : RawInstrument) (context : Host)
    (notes : list entry) (bpm : num) (k : nat) :
  let s := after k (nextNote this context notes bpm)
                 (nextNote this context notes bpm (mkSequencer 0 initial)) in
  (List.length (timers (host s)) <= 1)%nat
  /\ (i s <= List.length notes)%nat
  /\ List.length (delays (trace (host s))) = i s
  /\ (count isCallback (trace (host s)) <= 1)%nat
  /\ (count isCallback (trace (host s)) = 1%nat <-> timers (host s) = [])
  /\ (timers (host s) = [] -> i s = List.length notes)
  /\ (forall fuel s',
        playNotes_fuel fuel this context notes bpm = Some s' ->
        s' = after fuel (nextNote this context notes bpm)
                   (nextNote this context notes bpm (mkSequencer 0 initial))).
Proof.
  cbn zeta.
  set (cb := nextNote this context notes bpm).
  assert (forall s,
            (i s <= List.length notes)%nat
            /\ List.length (delays (trace (host s))) = i s
            /\ ((exists due, timers (host s) = [due])
                /\ count isCallback (trace (host s)) = 0%nat
                \/ timers (host s) = []
                   /\ count isCallback (trace (host s)) = 1%nat
                   /\ i s = List.length notes) ->
            (List.length (timers (host s)) <= 1)%nat
            /\ (i s <= List.length notes)%nat
            /\ List.length (delays (trace (host s))) = i s
            /\ (count isCallback (trace (host s)) <= 1)%nat
            /\ (count isCallback (trace (host s)) = 1%nat <-> timers (host s) = [])
            /\ (timers (host s) = [] -> i s = List.length notes)) as Hsum.
  { intros s (Hi & Hd & [((due & Ht) & Hc) | (Ht & Hc & Hn)]);
      rewrite Ht, Hc; cbn [List.length];
      repeat split; try lia; try congruence; try discriminate. }
  assert (forall k s,
            (i s <= List.length notes)%nat
            /\ List.length (delays (trace (host s))) = i s
            /\ ((exists due, timers (host s) = [due])
                /\ count isCallback (trace (host s)) = 0%nat
                \/ timers (host s) = []
                   /\ count isCallback (trace (host s)) = 1%nat
                   /\ i s = List.length notes) ->
            let s' := after k cb s in
            (i s' <= List.length notes)%nat
            /\ List.length (delays (trace (host s'))) = i s'
            /\ ((exists due, timers (host s') = [due])
                /\ count isCallback (trace (host s')) = 0%nat
                \/ timers (host s') = []
                   /\ count isCallback (trace (host s')) = 1%nat
                   /\ i s' = List.length notes)) as Hstep.
  { clear k. induction k as [| k IH]; intros s Hs; [exact Hs | ].
    cbn [after]. unfold fire.
    destruct Hs as (Hi & Hd & [((due & Ht) & Hc) | (Ht & Hc & Hn)]).
    - rewrite Ht. apply IH.
      apply (nextNote_keeps this context notes bpm
               (mkSequencer (i s) (mkWorld due (trace (host s)) [])));
        cbn [i host trace timers]; first [assumption | reflexivity].
    - rewrite Ht. cbn zeta. rewrite Ht, Hc.
      split; [exact Hi | split; [exact Hd | right; now repeat split ] ]. }
  assert (let s0 := cb (mkSequencer 0 initial) in
          (i s0 <= List.length notes)%nat
          /\ List.length (delays (trace (host s0))) = i s0
          /\ ((exists due, timers (host s0) = [due])
              /\ count isCallback (trace (host s0)) = 0%nat
              \/ timers (host s0) = []
                 /\ count isCallback (trace (host s0)) = 1%nat
                 /\ i s0 = List.length notes)) as H0.
  { apply (nextNote_keeps this context notes bpm (mkSequencer 0 initial));
      cbn [i host initial trace timers]; try reflexivity. lia. }
  destruct (Hsum _ (Hstep k _ H0)) as (H1 & H2 & H3 & H4 & H5 & H6).
  repeat split; try assumption; try apply H5.
  intros fuel s' Hrun. now apply run_timers_after.
Qed.

(** ** Composition: concatenation and tempo *)

(** X14.  Playing the concatenation of two lists takes the time of the first
    plus the time of the second: for [bpm > 0] the three runs end, the clock
    at the callback of the concatenation is the sum of the two clocks, its
    timers are those of the first run followed by those of the second, and
    its submissions are as many as in both together. *)
Theorem playNotes_concat (this : RawInstrument) (context : Host)
    (l1 l2 : list entry) (bpm : R) :
  0 < bpm ->
  exists s1 s2 s,
    playNotes this context l1 (Fin bpm) = Some s1
    /\ playNotes this context l2 (Fin bpm) = Some s2
    /\ playNotes this context (l1 ++ l2) (Fin bpm) = Some s
    /\ now (host s) = nadd (now (host s1)) (now (host s2))
    /\ delays (trace (host s))
       = delays (trace (host s1)) ++ delays (trace (host s2))
    /\ count isStart (trace (host s))
       = (count isStart (trace (host s1)) + count isStart (trace (host s2)))%nat.
Proof.
  intros Hbpm.
  do 3 eexists.
  split; [apply playNotes_run; exact Hbpm | ].
  split; [apply playNotes_run; exact Hbpm | ].
  split; [apply playNotes_run; exact Hbpm | ].
  cbn [host now trace nadd].
  split; [apply Fin_eq; rewrite totalSeconds_app; lra | ].
  assert (forall l,
            delays (flat_map (entryAt this context bpm l) (seq 0 (List.length l))
                      ++ [(Fin (1000 * totalSeconds bpm l), Callback)])
            = map (fun e => Fin (1000 * (60 / bpm * durationFraction e))) l) as Hd.
  { intros l. rewrite delays_app.
    pose proof (delays_entries this context bpm l []) as H.
    cbn [app List.length] in H. rewrite H. cbn [delays]. apply app_nil_r. }
  assert (forall l,
            count isStart
              (flat_map (entryAt this context bpm l) (seq 0 (List.length l))
                 ++ [(Fin (1000 * totalSeconds bpm l), Callback)])
            = List.length (filter isNote l)) as Hc.
  { intros l. rewrite count_app.
    pose proof (count_entries this context bpm isStart l []) as H.
    cbn [app List.length] in H. rewrite H.
    rewrite (notes_rendered this context bpm isStart)
      by (intros e; apply (entryCalls_count this context bpm e)).
    unfold count. cbn. lia. }
  rewrite !Hd, !Hc. split.
  - apply map_app.
  - now rewrite filter_app, length_app.
Qed.

Lemma playNotes_concat_witness :
  exists s1 s2 s,
    playNotes sineInstrument smallHost scenario (Fin 120) = Some s1
    /\ playNotes sineInstrument smallHost scenario (Fin 120) = Some s2
    /\ playNotes sineInstrument smallHost (scenario ++ scenario) (Fin 120)
       = Some s
    /\ now (host s) = nadd (now (host s1)) (now (host s2)).
Proof.
  destruct (playNotes_concat sineInstrument smallHost scenario scenario 120)
    as (s1 & s2 & s & H1 & H2 & H & Hnow & _); [lra | ].
  exists s1, s2, s. repeat split; assumption.
Defined.



(** ** The first version against the later ones *)

Lemma PitchBoard_overtonesSum_Fin :
  PitchBoard_overtonesSum = Fin (1 + 1 / 2 + 0 + 0 + 1 / 4).
Proof. reflexivity. Qed.

Section PitchBoardSamples.

Variables rate freq : R.
Variable k : nat.
Hypothesis rate_pos : 0 < rate.

(** The two loops accumulate the same terms, the first version dividing each
    term by the sum of the weights. *)
Lemma PitchBoard_loop_simple_loop (ws : list R) :
  forall j, exists d, forall acc acc',
    PitchBoard_loop (map Fin ws) j (Fin freq) k (Fin rate) (Fin acc)
    = Fin (acc + d / (1 + 1 / 2 + 0 + 0 + 1 / 4))
    /\ simple_loop (map Fin ws) j (Fin (INR k / rate)) (Fin freq) (Fin acc')
       = Fin (acc' + d).
Proof.
  assert (0 <= 50 * (INR k / rate)) as Hx.
  { pose proof (pos_INR k).
    assert (0 <= INR k / rate)
      by (apply Rmult_le_pos; [lra | left; now apply Rinv_0_lt_compat]).
    lra. }
  destruct (lognormal_nonneg_arg _ Hx) as (e & He & _).
  induction ws as [| w ws IH]; intros j.
  - exists 0. intros acc acc'. cbn [map PitchBoard_loop simple_loop].
    split; apply Fin_eq; lra.
  - destruct (IH (S j)) as (d & Hd).
    exists (w * e * sin (2 * PI * (freq * INR (j + 1)) * (INR k / rate)) + d).
    intros acc acc'.
    cbn [map PitchBoard_loop simple_loop].
    rewrite PitchBoard_overtonesSum_Fin.
    cbn [nmul Math_PI]. rewrite !ndiv_Fin by lra.
    replace (50 * INR k / rate) with (50 * (INR k / rate))
      by (unfold Rdiv; ring).
    rewrite He. cbn [Math_sin nmul nadd].
    replace (2 * PI * (freq * INR (j + 1)) * INR k / rate)
      with (2 * PI * (freq * INR (j + 1)) * (INR k / rate))
      by (unfold Rdiv; ring).
    destruct (Hd (acc + w / (1 + 1 / 2 + 0 + 0 + 1 / 4) * e
                        * sin (2 * PI * (freq * INR (j + 1)) * (INR k / rate)))
                 (acc' + w * e
                         * sin (2 * PI * (freq * INR (j + 1)) * (INR k / rate))))
      as (-> & ->).
    split; apply Fin_eq; field.
Qed.

End PitchBoardSamples.

(** X16.  The samples that the first version's [playFreq] computes in place
    are, in exact arithmetic, those of the later
    [new SimpleInstrument([1, 1/2, 0, 0, 1/4])]: for a positive sample rate
    and a finite frequency, sample [k] equals that instrument's waveform at
    time [k / sampleRate]. *)
Theorem PitchBoard_sample_SimpleInstrument (context : Host) (rate freq : R)
    (k : nat) :
  sampleRate context = Fin rate ->
  0 < rate ->
  exists simple,
    SimpleInstrument PitchBoard_overtones = Normal simple
    /\ PitchBoard_sample context (Fin freq) k
       = simple (ndiv (Fin (INR k)) (sampleRate context)) (Fin freq).
Proof.
  intros Hrate Hpos.
  eexists. split; [reflexivity | ]. cbv beta.
  unfold PitchBoard_sample. rewrite Hrate, ndiv_Fin by lra.
  change PitchBoard_overtones with (map Fin [1; 1 / 2; 0; 0; 1 / 4]).
  destruct (PitchBoard_loop_simple_loop rate freq k Hpos [1; 1 / 2; 0; 0; 1 / 4]
              0%nat) as (d & Hd).
  destruct (Hd 0 0) as (-> & ->).
  cbn [map tl fold_left nadd]. rewrite ndiv_Fin by lra.
  apply Fin_eq. field.
Qed.

Lemma PitchBoard_sample_SimpleInstrument_witness :
  exists simple,
    SimpleInstrument PitchBoard_overtones = Normal simple
    /\ PitchBoard_sample smallHost (Fin 440) 3
       = simple (ndiv (Fin (INR 3)) (sampleRate smallHost)) (Fin 440).
Proof.
  apply (PitchBoard_sample_SimpleInstrument smallHost 8 440 3).
  - reflexivity.
  - lra.
Defined.

Lemma skipn_nth_error (A : Type) (l : list A) :
  forall k x, nth_error l k = Some x -> skipn k l = x :: skipn (S k) l.
Proof.
  induction l as [| y l IH]; intros [| k] x H; cbn [nth_error] in H;
    try discriminate.
  - now injection H as ->.
  - cbn [skipn]. now apply IH.
Qed.

Section PitchBoardRun.

Variable context : Host.
Variable notes : list Note.
Variable bpm : R.
Hypothesis bpm_pos : 0 < bpm.

Lemma PitchBoard_play_effect (note : Note) (w : world) :
  let ms := Fin (1000 * (60 / bpm * Note_length note)) in
  let w' := PitchBoard_play context note (Fin bpm) w in
  timers w' = timers w ++ [nadd (now w) ms]
  /\ count isCallback (trace w') = count isCallback (trace w)
  /\ count isStart (trace w') = S (count isStart (trace w))
  /\ delays (trace w') = delays (trace w) ++ [ms].
Proof.
  cbn zeta. unfold PitchBoard_play.
  rewrite (secondsPerWholeNote_Fin bpm bpm_pos). cbn [nmul].
  rewrite emit_all. unfold setTimeout. cbn [now trace timers].
  split; [reflexivity | ].
  rewrite !count_app, !delays_app, !count_stamped.
  unfold count. cbn. repeat split; try lia.
  now rewrite app_nil_r.
Qed.

Lemma PitchBoard_run_from (m : nat) :
  forall s fuel,
    timers (host s) = [] ->
    (i s + m = List.length notes)%nat ->
    (m <= fuel)%nat ->
    exists s',
      run_timers fuel (PitchBoard_nextNote context notes (Fin bpm))
                 (PitchBoard_nextNote context notes (Fin bpm) s) = Some s'
      /\ i s' = List.length notes
      /\ timers (host s') = []
      /\ count isCallback (trace (host s')) = count isCallback (trace (host s))
      /\ count isStart (trace (host s')) = (count isStart (trace (host s)) + m)%nat
      /\ delays (trace (host s'))
         = delays (trace (host s))
             ++ map (fun n => Fin (1000 * (60 / bpm * Note_length n)))
                    (skipn (i s) notes).
Proof.
  induction m as [| m IH]; intros s fuel Ht Hi Hfuel.
  - unfold PitchBoard_nextNote.
    assert (nth_error notes (i s) = None) as -> by (apply nth_error_None; lia).
    exists s. split.
    + destruct fuel; cbn [run_timers]; now rewrite Ht.
    + rewrite skipn_all2 by lia. cbn [map]. rewrite app_nil_r.
      repeat split; try assumption; lia.
  - destruct (nth_error notes (i s)) as [note |] eqn:E;
      [ | apply nth_error_None in E; lia ].
    destruct fuel as [| fuel]; [lia | ].
    unfold PitchBoard_nextNote at 2. rewrite E.
    destruct (PitchBoard_play_effect note (host s)) as (Htm & Hcb & Hst & Hdl).
    cbn [run_timers host i]. rewrite Htm, Ht. cbn [app].
    destruct (IH (mkSequencer (S (i s))
                    (mkWorld (nadd (now (host s))
                                   (Fin (1000 * (60 / bpm * Note_length note))))
                             (trace (PitchBoard_play context note (Fin bpm) (host s)))
                             []))
                 fuel) as (s' & Hrun & Hi' & Ht' & Hcb' & Hst' & Hdl');
      cbn [i host timers trace]; try reflexivity; try lia.
    exists s'. cbn [i host trace] in Hcb', Hst', Hdl'.
    split; [exact Hrun | ].
    rewrite Hcb', Hst', Hdl', Hcb, Hst, Hdl, (skipn_nth_error _ notes _ _ E).
    cbn [map]. rewrite <- app_assoc.
    repeat split; try assumption; lia.
Qed.

End PitchBoardRun.

(** X17.  The first version's [playNotes(notes, bpm)] has no completion
    callback: for [bpm > 0] the run ends with no timer armed after taking
    every note, having submitted one buffer per note and armed one timer of
    [1000 * (60/bpm * fraction)] milliseconds per note, in order, and having
    invoked no callback; on the empty array it makes no call at all. *)
Theorem PitchBoard_playNotes_run (context : Host) (notes : list Note)
    (bpm : R) :
  0 < bpm ->
  exists s,
    PitchBoard_playNotes context notes (Fin bpm) = Some s
    /\ i s = List.length notes
    /\ timers (host s) = []
    /\ count isCallback (trace (host s)) = 0%nat
    /\ count isStart (trace (host s)) = List.length notes
    /\ delays (trace (host s))
       = map (fun n => Fin (1000 * (60 / bpm * Note_length n))) notes
    /\ (notes = [] -> trace (host s) = []).
Proof.
  intros Hbpm.
  destruct (PitchBoard_run_from context notes bpm Hbpm (List.length notes)
              (mkSequencer 0 initial) (List.length notes))
    as (s & Hrun & Hi & Ht & Hcb & Hst & Hdl);
    cbn [i host initial timers]; try reflexivity; try lia.
  exists s. cbn [i host initial trace] in Hcb, Hst, Hdl.
  split; [exact Hrun | ].
  repeat split; try assumption.
  intros ->. unfold PitchBoard_playNotes in Hrun. cbn in Hrun.
  now injection Hrun as <-.
Qed.

Lemma PitchBoard_playNotes_run_witness :
  exists s,
    PitchBoard_playNotes smallHost
      [mkNote "A" 4 (1 / 4); mkNote "A" (-10) (1 / 4)] (Fin 200) = Some s
    /\ count isCallback (trace (host s)) = 0%nat
    /\ count isStart (trace (host s)) = 2%nat.
Proof.
  destruct (PitchBoard_playNotes_run smallHost
              [mkNote "A" 4 (1 / 4); mkNote "A" (-10) (1 / 4)] 200)
    as (s & Hrun & _ & _ & Hcb & Hst & _); [lra | ].
  exists s. repeat split; assumption.
Defined.

(** ** The version with rests against the version of notes only *)

Lemma run_timers_ext (f g : sequencer -> sequencer) :
  (forall s, f s = g s) ->
  forall fuel s, run_timers fuel f s = run_timers fuel g s.
Proof.
  intros Hfg. induction fuel as [| fuel IH]; intros s; cbn [run_timers].
  - reflexivity.
  - destruct (timers (host s)); [reflexivity | ]. now rewrite Hfg, IH.
Qed.

(** X18.  Adding [Rest] did not change how notes play: on a list of notes the
    sequencer of the version without [Rest], with the waveform function
    [(t, freq) => sample], runs exactly as the later [playNotes] does on the
    same notes with the same function (which ignores the note's duration),
    for every tempo: same outcome, same calls at the same clocks. *)
Theorem notesOnly_playNotes_agrees (waveformFunc : num -> num -> num)
    (context : Host) (notes : list Note) (bpm : num) :
  notesOnly_playNotes waveformFunc context notes bpm
  = playNotes (mkRawInstrument (fun t freq _ => waveformFunc t freq))
              context (map ENote notes) bpm.
Proof.
  unfold notesOnly_playNotes, playNotes, playNotes_fuel.
  rewrite length_map.
  assert (forall s,
            notesOnly_nextNote waveformFunc context notes bpm s
            = nextNote (mkRawInstrument (fun t freq _ => waveformFunc t freq))
                       context (map ENote notes) bpm s) as Hstep.
  { intros s. unfold notesOnly_nextNote, nextNote.
    rewrite nth_error_map. destruct (nth_error notes (i s)); reflexivity. }
  rewrite Hstep. apply run_timers_ext. exact Hstep.
Qed.

(** ** The two ends of a note *)

Lemma Binary64_overtone_loop_silent (waveFunc : num -> num)
    (freq t tmax : R) (n : nat) :
  0 <= freq -> 0 <= t ->
  2 * PI * (freq * INR n) <= maxFinite ->
  2 * PI * (freq * INR n) * t <= maxFinite ->
  (forall x, 0 <= x -> finite64 (2 * PI * x) ->
             exists y, waveFunc (Fin x) = Fin y) ->
  Binary64.attackAndDecay (Binary64.ndiv (Fin t) (Fin tmax)) (Fin 0.1) (Fin 0.5)
  = Fin 0 ->
  forall ws k,
    (k + List.length ws <= n)%nat ->
    Binary64.overtone_loop waveFunc (map Fin ws) k (Fin t) (Fin freq) (Fin tmax)
      (Fin 0) = Fin 0.
Proof.
  intros Hfreq Ht Hf1 Hf2 Hwave He.
  induction ws as [| w ws IH]; intros k Hk.
  - reflexivity.
  - cbn [List.length] in Hk. cbn [map Binary64.overtone_loop]. rewrite He.
    destruct (Binary64_overtone_arg freq t n Hfreq Ht Hf1 Hf2 k)
      as (x & -> & Hx & Hfin); [lia | ].
    destruct (Hwave x Hx Hfin) as (y & ->).
    assert (Binary64.nadd (Fin 0)
              (Binary64.nmul (Binary64.nmul (Fin w) (Fin 0)) (Fin y)) = Fin 0)
      as ->.
    { unfold Binary64.nmul at 2. cbn [nmul Binary64.rnd].
      rewrite Rmult_0_r, fl_0.
      unfold Binary64.nmul. cbn [nmul Binary64.rnd]. rewrite Rmult_0_l, fl_0.
      unfold Binary64.nadd. cbn [nadd Binary64.rnd]. rewrite Rplus_0_l.
      apply fl_0. }
    apply IH. lia.
Qed.

(** X19.  A note of an [Instrument] starts and ends at zero: for
    non-negative weights of positive finite sum, a wave function with finite
    values, a positive duration and a frequency [>= 0] for which [2 pi] times
    the highest overtone frequency, and that times the duration, are finite,
    the sample at time 0 and the sample at the time of the duration are
    both 0. *)
Theorem Instrument_silent_ends (ws : list R) (waveFunc : num -> num)
    (freq tmax : R) :
  Forall (fun w => 0 <= w /\ number64 w) ws ->
  0 < Rsum ws <= maxFinite ->
  (forall x, 0 <= x -> finite64 (2 * PI * x) ->
             exists y, waveFunc (Fin x) = Fin y) ->
  0 <= freq ->
  0 < tmax ->
  finite64 (2 * PI * (freq * INR (List.length ws))) ->
  finite64 (2 * PI * (freq * INR (List.length ws)) * tmax) ->
  exists inst,
    Binary64.Instrument (map Fin ws) (Some waveFunc) = Normal inst
    /\ waveformFunc inst (Fin 0) (Fin freq) (Fin tmax) = Fin 0
    /\ waveformFunc inst (Fin tmax) (Fin freq) (Fin tmax) = Fin 0.
Proof.
  intros Hws Hsum Hwave Hfreq Htmax Hf1 Hf2.
  pose proof PI_range as HPI. pose proof overflowBound_large as Hob.
  pose proof underflowBound_range as Hub.
  assert (0 <= freq * INR (List.length ws)) as Hfn
    by (pose proof (pos_INR (List.length ws)); nra).
  assert (0 <= 2 * PI * (freq * INR (List.length ws))) as Hfn1 by nra.
  assert (0 <= 2 * PI * (freq * INR (List.length ws)) * tmax) as Hfn2 by nra.
  unfold finite64 in Hf1, Hf2. rewrite Rabs_pos_eq in Hf1, Hf2 by assumption.
  unfold Binary64.Instrument.
  rewrite (Binary64_reduce_add_Fin ws Hws Hsum).
  eexists. split; [reflexivity | ]. cbn [waveformFunc].
  assert (Binary64.attackAndDecay (Binary64.ndiv (Fin 0) (Fin tmax))
            (Fin 0.1) (Fin 0.5) = Fin 0) as H0.
  { assert (Binary64.ndiv (Fin 0) (Fin tmax) = Fin 0) as ->.
    { unfold Binary64.ndiv. rewrite ndiv_Fin by lra. cbn [Binary64.rnd].
      replace (0 / tmax) with 0 by (unfold Rdiv; ring). apply fl_0. }
    destruct (Binary64_attackAndDecay_unit 0) as (e & -> & _ & Hz & _); [lra | ].
    now rewrite Hz. }
  assert (Binary64.attackAndDecay (Binary64.ndiv (Fin tmax) (Fin tmax))
            (Fin 0.1) (Fin 0.5) = Fin 0) as H1.
  { assert (Binary64.ndiv (Fin tmax) (Fin tmax) = Fin 1) as ->.
    { unfold Binary64.ndiv. rewrite ndiv_Fin by lra. cbn [Binary64.rnd].
      replace (tmax / tmax) with 1 by (field; lra).
      apply fl_Fin; rewrite Rabs_pos_eq by lra; [right | ]; lra. }
    destruct (Binary64_attackAndDecay_unit 1) as (e & -> & _ & _ & Hz); [lra | ].
    now rewrite Hz. }
  assert (Binary64.ndiv (Fin 0) (Fin (Rsum ws)) = Fin 0) as Hq.
  { unfold Binary64.ndiv. rewrite ndiv_Fin by lra. cbn [Binary64.rnd].
    replace (0 / Rsum ws) with 0 by (unfold Rdiv; ring). apply fl_0. }
  rewrite (Binary64_overtone_loop_silent waveFunc freq 0 tmax (List.length ws)
             Hfreq (Rle_refl 0) Hf1 ltac:(lra) Hwave H0 ws 0%nat ltac:(cbn; lia)).
  rewrite (Binary64_overtone_loop_silent waveFunc freq tmax tmax
             (List.length ws) Hfreq ltac:(lra) Hf1 Hf2 Hwave H1 ws 0%nat
             ltac:(cbn; lia)).
  now rewrite Hq.
Qed.

Lemma Instrument_silent_ends_witness :
  exists inst,
    Binary64.Instrument (map Fin [1; 0; 0; 1 / 4]) (Some Binary64.SINE)
    = Normal inst
    /\ waveformFunc inst (Fin 0) (Fin 440) (Fin (3 / 40)) = Fin 0
    /\ waveformFunc inst (Fin (3 / 40)) (Fin 440) (Fin (3 / 40)) = Fin 0.
Proof.
  apply (Instrument_silent_ends [1; 0; 0; 1 / 4] Binary64.SINE 440 (3 / 40)).
  - repeat (apply Forall_cons; [split; [lra | apply number64_small; lra] | ]).
    apply Forall_nil.
  - pose proof maxFinite_large. unfold Rsum. cbn [fold_right]. lra.
  - intros x Hx Hfin.
    destruct (Binary64_SINE_range x Hx Hfin) as (y & Hy & _). now exists y.
  - lra.
  - lra.
  - pose proof PI_range. apply finite64_small. cbn [List.length INR]. lra.
  - pose proof PI_range. apply finite64_small. cbn [List.length INR]. lra.
Defined.
